(** * The OpenGL rasterizer surface cache of yuzu

    A shallow embedding of [video_core/renderer_opengl/gl_rasterizer_cache.h]:
    the surface descriptor [SurfaceParams] with its geometry helpers, the
    reserve key [SurfaceReserveKey], the cached object [CachedSurface] and
    the part of [RasterizerCacheOpenGL] that tracks reinterpreted surfaces. *)

From Equations Require Import Equations.
From stdpp Require Import gmap list.
From stdpp Require Import strings.

Local Open Scope Z_scope.

(** ** Machine integers

    [u32] and [std::size_t]/[CacheAddr] values are integers of [Z]; the
    arithmetic of the header is unsigned and wraps around. *)

Definition wrap32 (x : Z) : Z := x mod 2 ^ 32.
Definition wrap64 (x : Z) : Z := x mod 2 ^ 64.

Definition is_u32 (x : Z) : Prop := 0 <= x < 2 ^ 32.
Definition is_u64 (x : Z) : Prop := 0 <= x < 2 ^ 64.

(** Unsigned division; dividing by zero has no defined result in C++. *)
Definition udiv (a b : Z) : option Z :=
  if b =? 0 then None else Some (a / b).

(** ** Loops that halve a running block size

    [while (b > 1 && cond(b)) { b >>= 1; }] followed by [return b], as in
    [MipBlockHeight] and [MipBlockDepth]. The value strictly decreases, so
    the loop is defined by well-founded recursion on it. *)

Equations? halve_while (cond : Z -> bool) (b : Z) : Z by wf (Z.to_nat b) lt :=
  halve_while cond b with Z_lt_dec 1 b := {
    | left _ => if cond b then halve_while cond (Z.shiftr b 1) else b
    | right _ => b }.
Proof.
  rewrite Z.shiftr_div_pow2 by lia.
  change (2 ^ 1) with 2.
  assert (b / 2 < b) by (apply Z.div_lt; lia).
  assert (0 <= b / 2) by (apply Z.div_pos; lia).
  lia.
Qed.

(** The loop as the specification words it: "start at [b] and halve while
    [cond] holds", as a big-step relation between the start value and the
    result. No guard is built in; a guard is part of [cond] where the
    specification states one. *)
Inductive halving (cond : Z -> bool) : Z -> Z -> Prop :=
| halving_stop b : cond b = false -> halving cond b b
| halving_step b r :
    cond b = true -> halving cond (b / 2) r -> halving cond b r.

(** ** Enumerations

    [SurfaceTarget], [PixelFormat], [ComponentType] and [SurfaceType] are
    declared in [video_core/surface.h]. The constructors of [SurfaceTarget]
    are the cases of [SurfaceTargetName]; the other three are kept as the
    integer value of the enumerator. [SurfaceClass] is declared inside
    [SurfaceParams]. *)

Inductive SurfaceTarget :=
| Texture1D
| Texture2D
| Texture3D
| Texture1DArray
| Texture2DArray
| TextureCubemap
| TextureCubeArray.

Inductive SurfaceClass :=
| Uploaded
| RenderTarget
| DepthBuffer
| Copy.

Definition PixelFormat := Z.
Definition ComponentType := Z.
Definition SurfaceType := Z.

#[global] Instance SurfaceTarget_eq_dec : EqDecision SurfaceTarget.
Proof. solve_decision. Defined.

#[global] Instance SurfaceClass_eq_dec : EqDecision SurfaceClass.
Proof. solve_decision. Defined.

(** ** Surface descriptors *)

Module SurfaceParams.

(** The anonymous struct [rt]: render target specific parameters. *)
Record rt_t := mk_rt {
  index : Z;
  array_mode : Z;
  volume : Z;
  layer_stride : Z;
  base_layer : Z }.

Record t := mk {
  is_tiled : bool;
  block_width : Z;
  block_height : Z;
  block_depth : Z;
  tile_width_spacing : Z;
  pixel_format : PixelFormat;
  component_type : ComponentType;
  type : SurfaceType;
  width : Z;
  height : Z;
  depth : Z;
  unaligned_height : Z;
  pitch : Z;
  target : SurfaceTarget;
  identity : SurfaceClass;
  max_mip_level : Z;
  is_layered : bool;
  is_array : bool;
  srgb_conversion : bool;
  (* Parameters used for caching *)
  host_ptr : Z;
  gpu_addr : Z;
  size_in_bytes : Z;
  size_in_bytes_gl : Z;
  (* Render target specific parameters, not used in caching *)
  rt : rt_t }.

#[global] Instance rt_eq_dec : EqDecision rt_t.
Proof. solve_decision. Defined.

#[global] Instance params_eq_dec : EqDecision t.
Proof. solve_decision. Defined.

Section Geometry.

(** Format tables of [video_core/surface.h] and the layout size of
    [video_core/textures/decoders.h]; their bodies are not part of the
    header, so the geometry is stated for any such functions. *)
Variable GetCompressionFactor : PixelFormat -> Z.
Variable GetBytesPerPixel : PixelFormat -> Z.
Variable GetDefaultBlockHeight : PixelFormat -> Z.
Variable CalculateSize : bool -> Z -> Z -> Z -> Z -> Z -> Z -> Z.

(** The [uncompressed_size] local of [SizeInBytesRaw]. *)
Definition uncompressed_size (p : t) (ignore_tiled : bool) : Z :=
  CalculateSize (if ignore_tiled then false else is_tiled p)
    (GetBytesPerPixel (pixel_format p))
    (width p) (height p) (depth p) (block_height p) (block_depth p).

(** [compression_factor * compression_factor] is a product of [u32]. *)
Definition SizeInBytesRaw (p : t) (ignore_tiled : bool) : option Z :=
  let compression_factor := GetCompressionFactor (pixel_format p) in
  udiv (uncompressed_size p ignore_tiled)
       (wrap32 (compression_factor * compression_factor)).

Definition SizeInBytesGL (p : t) : option Z := SizeInBytesRaw p true.

(** [mip_level] is a [u32]. C++ defines the shifts of [MipWidth],
    [MipHeight] and [MipDepth] for counts below 32 only; the shift here is
    the one of [Z], so these functions stand for the code at mip levels
    below 32. *)
Definition MipWidth (p : t) (mip_level : Z) : Z :=
  Z.max 1 (Z.shiftr (width p) mip_level).

Definition MipHeight (p : t) (mip_level : Z) : Z :=
  Z.max 1 (Z.shiftr (height p) mip_level).

Definition MipDepth (p : t) (mip_level : Z) : Z :=
  if is_layered p then depth p else Z.max 1 (Z.shiftr (depth p) mip_level).

Definition MipBlockHeight (p : t) (mip_level : Z) : option Z :=
  if mip_level =? 0 then Some (block_height p)
  else
    let alt_height := MipHeight p mip_level in
    let h := GetDefaultBlockHeight (pixel_format p) in
    blocks_in_y ← udiv (wrap32 (alt_height + h - 1)) h;
    Some (halve_while (fun bh => blocks_in_y <=? wrap32 (bh * 4)) 16).

Definition MipBlockDepth (p : t) (mip_level : Z) : option Z :=
  if mip_level =? 0 then Some (block_depth p)
  else if is_layered p then Some 1
  else
    let mip_depth := MipDepth p mip_level in
    let bd := halve_while (fun bd => wrap32 (mip_depth * 2) <=? bd) 32 in
    if bd =? 32 then
      bh ← MipBlockHeight p mip_level;
      if 4 <=? bh then Some 16 else Some bd
    else Some bd.

(** [std::tie(...) == std::tie(...)] compares the tuples fieldwise. *)
Definition IsCompatibleSurface (p other : t) : bool :=
  if bool_decide
       ((pixel_format p, type p, width p, height p, target p, depth p,
         is_tiled p)
        = (pixel_format other, type other, width other, height other,
           target other, depth other, is_tiled other))
  then
    if negb (is_tiled p) then true
    else bool_decide
           ((block_height p, block_depth p, tile_width_spacing p)
            = (block_height other, block_depth other,
               tile_width_spacing other))
  else false.

(** [InnerMipmapMemorySize] and [InnerMemorySize] are private members that
    the header declares and does not define; the arguments left out at a
    call take the defaults of the declaration ([false]). *)
Variable InnerMipmapMemorySize : t -> Z -> bool -> bool -> bool -> Z.
Variable InnerMemorySize : t -> bool -> bool -> bool -> Z.

(** [size * depth] is a product of [std::size_t]. *)
Definition MemorySize (p : t) : Z :=
  let size := InnerMemorySize p false (is_layered p) false in
  if is_layered p then wrap64 (size * depth p) else size.

Definition IsValid (p : t) : bool :=
  negb (gpu_addr p =? 0) && negb (host_ptr p =? 0) &&
  negb (height p =? 0) && negb (width p =? 0).

Definition LayerMemorySize (p : t) : Z := InnerMemorySize p false true false.

Definition LayerSizeGL (p : t) (mip_level : Z) : Z :=
  InnerMipmapMemorySize p mip_level true (is_layered p) false.

Definition GetMipmapSizeGL (p : t) (mip_level : Z) (ignore_compressed : bool)
  : Z :=
  let size :=
    InnerMipmapMemorySize p mip_level true (is_layered p) ignore_compressed in
  if is_layered p then wrap64 (size * depth p) else size.

(** [for (u32 i = 0; i < mip_level; i++) offset += ...;] *)
Definition GetMipmapLevelOffset (p : t) (mip_level : Z) : Z :=
  fold_left
    (fun offset i =>
       wrap64 (offset + InnerMipmapMemorySize p i false (is_layered p) false))
    (seqZ 0 mip_level) 0.

Definition GetMipmapLevelOffsetGL (p : t) (mip_level : Z) : Z :=
  fold_left
    (fun offset i =>
       wrap64 (offset + InnerMipmapMemorySize p i true (is_layered p) false))
    (seqZ 0 mip_level) 0.

Definition GetMipmapSingleSize (p : t) (mip_level : Z) : Z :=
  InnerMipmapMemorySize p mip_level false (is_layered p) false.

(** [Common::CountTrailingZeroes32] of [common/bit_util.h]. The shift
    [1U << l2] is defined for counts below 32. *)
Variable CountTrailingZeroes32 : Z -> Z.

Definition RowAlign (p : t) (mip_level : Z) : option Z :=
  let m_width := MipWidth p mip_level in
  let bytes_per_pixel := GetBytesPerPixel (pixel_format p) in
  let l2 := CountTrailingZeroes32 (wrap32 (m_width * bytes_per_pixel)) in
  if l2 <? 32 then Some (wrap32 (Z.shiftl 1 l2)) else None.

End Geometry.

(** The names of targets and classes. A [switch] that reaches its
    [default:] label logs "Unimplemented ..." and runs into [UNREACHABLE()];
    that outcome is [None]. *)
Definition SurfaceTargetName (target : SurfaceTarget) : option string :=
  match target with
  | Texture1D => Some "Texture1D"
  | Texture2D => Some "Texture2D"
  | Texture3D => Some "Texture3D"
  | Texture1DArray => Some "Texture1DArray"
  | Texture2DArray => Some "Texture2DArray"
  | TextureCubemap => Some "TextureCubemap"
  | TextureCubeArray => Some "TextureCubeArray"
  end%string.

Definition TargetName (p : t) : option string :=
  match target p with
  | Texture1D => Some "1D"
  | Texture2D => Some "2D"
  | Texture3D => Some "3D"
  | Texture1DArray => Some "1DArray"
  | Texture2DArray => Some "2DArray"
  | TextureCubemap => Some "Cube"
  | _ => None
  end%string.

Definition ClassName (p : t) : option string :=
  match identity p with
  | Uploaded => Some "UP"
  | RenderTarget => Some "RT"
  | DepthBuffer => Some "DB"
  | Copy => Some "CP"
  end%string.

Definition IdentityString (p : t) : option string :=
  class_name ← ClassName p;
  target_name ← TargetName p;
  Some (class_name +:+ "_" +:+ target_name +:+ "_"
        +:+ (if is_tiled p then "T" else "L"))%string.

(** The fields that [IsCompatibleSurface] reads: the first tuple, and the
    second one for a tiled descriptor. *)
Definition compatibility_key (p : t) :=
  ((pixel_format p, type p, width p, height p, target p, depth p, is_tiled p),
   if is_tiled p
   then Some (block_height p, block_depth p, tile_width_spacing p)
   else None).

End SurfaceParams.

(** ** Reserve keys

    [SurfaceReserveKey] derives from [Common::HashableStruct<SurfaceParams>],
    whose single member [state] holds the descriptor; two keys are the same
    key when their [state]s are equal. *)

Module SurfaceReserveKey.

Record t := mk { state : SurfaceParams.t }.

#[global] Instance key_eq_dec : EqDecision t.
Proof. solve_decision. Defined.

(** The three assignments of [Create] after [res.state = params]; [{}]
    value-initialises: the first enumerator, address zero, an all-zero
    [rt]. *)
Definition clear_identity (p : SurfaceParams.t) : SurfaceParams.t :=
  let 'SurfaceParams.mk a b c d e f g h i j k l m n _ o q r s u v w x y := p in
  SurfaceParams.mk a b c d e f g h i j k l m n Uploaded o q r s u v w x y.

Definition clear_gpu_addr (p : SurfaceParams.t) : SurfaceParams.t :=
  let 'SurfaceParams.mk a b c d e f g h i j k l m n id o q r s u _ w x y := p in
  SurfaceParams.mk a b c d e f g h i j k l m n id o q r s u 0 w x y.

Definition clear_rt (p : SurfaceParams.t) : SurfaceParams.t :=
  let 'SurfaceParams.mk a b c d e f g h i j k l m n id o q r s u v w x _ := p in
  SurfaceParams.mk a b c d e f g h i j k l m n id o q r s u v w x
    (SurfaceParams.mk_rt 0 0 0 0 0).

Definition Create (params : SurfaceParams.t) : t :=
  let res := mk params in
  let res := mk (clear_identity (state res)) in
  let res := mk (clear_gpu_addr (state res)) in
  let res := mk (clear_rt (state res)) in
  res.

End SurfaceReserveKey.

(** ** Interval maps

    [boost::icl::interval_map<CacheAddr, Surface>] associates a value with
    every address of the intervals it holds. The model keeps the segments as
    a list of non-empty right-open intervals [lo, hi) with their values:
    [insert] adds a value only where no address is associated yet, [erase]
    removes every address of an interval whatever its value, and a lookup
    at an address returns the value of the segment that contains it. *)

Module icl.

Definition interval : Type := Z * Z.

Definition right_open (lo hi : Z) : interval := (lo, hi).

Definition is_empty (i : interval) : bool := i.2 <=? i.1.

Definition contains (i : interval) (x : Z) : bool :=
  (i.1 <=? x) && (x <? i.2).

(** [k] lies within [i]. *)
Definition subinterval (k i : interval) : Prop := i.1 <= k.1 /\ k.2 <= i.2.

(** Segments are never empty. *)
Definition keep (l : list interval) : list interval :=
  List.filter (fun k => negb (is_empty k)) l.

(** The parts of [i] that lie outside [j]. *)
Definition cut (i j : interval) : list interval :=
  if is_empty j then keep [i]
  else keep [(i.1, Z.min i.2 j.1); (Z.max i.1 j.2, i.2)].

(** Some interval of the list contains the address. *)
Definition covers (l : list interval) (x : Z) : bool :=
  existsb (fun k => contains k x) l.

Definition interval_map (V : Type) : Type := list (interval * V).

Fixpoint find {V} (x : Z) (m : interval_map V) : option V :=
  match m with
  | [] => None
  | (i, v) :: m' => if contains i x then Some v else find x m'
  end.

(** The parts of [i] that no segment of [m] covers. *)
Fixpoint uncovered {V} (m : interval_map V) (pieces : list interval)
  : list interval :=
  match m with
  | [] => pieces
  | (j, _) :: m' => uncovered m' (flat_map (fun k => cut k j) pieces)
  end.

Definition insert {V} (iv : interval * V) (m : interval_map V)
  : interval_map V :=
  m ++ List.map (fun k => (k, iv.2)) (uncovered m (keep [iv.1])).

Definition erase {V} (i : interval) (m : interval_map V) : interval_map V :=
  flat_map (fun seg => List.map (fun k => (k, seg.2)) (cut seg.1 i)) m.

End icl.

(** ** Cached surfaces

    The fields of [CachedSurface] that the inline member functions read or
    write, with [cache_addr] of the base class [RasterizerCacheObject]
    (read through [GetCacheAddr]). The OpenGL handles and the staging
    buffer are only used by the member functions defined out of line. *)

Module CachedSurface.

Record t := mk {
  params : SurfaceParams.t;
  cached_size_in_bytes : Z;
  memory_size : Z;
  reinterpreted : bool;
  must_reload : bool;
  cpu_addr : Z;
  cache_addr : Z }.

Definition GetCpuAddr (o : t) : Z := cpu_addr o.
Definition GetSizeInBytes (o : t) : Z := cached_size_in_bytes o.
Definition GetMemorySize (o : t) : Z := memory_size o.
Definition GetCacheAddr (o : t) : Z := cache_addr o.
Definition GetSurfaceParams (o : t) : SurfaceParams.t := params o.

Definition MarkReinterpreted (o : t) : t :=
  mk (params o) (cached_size_in_bytes o) (memory_size o) true
     (must_reload o) (cpu_addr o) (cache_addr o).

Definition IsReinterpreted (o : t) : bool := reinterpreted o.

Definition MarkForReload (o : t) (reload : bool) : t :=
  mk (params o) (cached_size_in_bytes o) (memory_size o) (reinterpreted o)
     reload (cpu_addr o) (cache_addr o).

Definition MustReload (o : t) : bool := must_reload o.

Definition IsUploaded (o : t) : bool :=
  bool_decide (SurfaceParams.identity (params o) = Uploaded).

(** A surface as its constructor leaves the two flags:
    [bool reinterpreted = false; bool must_reload = false;]. *)
Definition fresh (o : t) : Prop :=
  reinterpreted o = false /\ must_reload o = false.

End CachedSurface.

(** ** The rasterizer cache

    [Surface] is [std::shared_ptr<CachedSurface>]: several holders share one
    object, so the objects live in a heap and a non-null [Surface] is a key
    of that heap. *)

Module RasterizerCacheOpenGL.

Definition Surface : Type := positive.

Record t := mk {
  heap : gmap Surface CachedSurface.t;
  store : gset Surface;
  reinterpreted_surfaces : icl.interval_map Surface }.

Definition with_heap (h : gmap Surface CachedSurface.t) (c : t) : t :=
  mk h (store c) (reinterpreted_surfaces c).

Definition with_reinterpreted_surfaces
    (m : icl.interval_map Surface) (c : t) : t :=
  mk (heap c) (store c) m.

(** Modelled from the spec: the base class [RasterizerCache<Surface>] of
    [video_core/rasterizer_cache.h] is the address-indexed store, "maps live
    entries by the memory range they occupy; supports ... register/unregister":
    [Register(entry)] makes the entry a live entry of the store and
    [Unregister(entry)] takes it out. *)
Definition RasterizerCache_Register (c : t) (object : Surface) : t :=
  mk (heap c) ({[object]} ∪ store c) (reinterpreted_surfaces c).

Definition RasterizerCache_Unregister (c : t) (object : Surface) : t :=
  mk (heap c) (store c ∖ {[object]}) (reinterpreted_surfaces c).

Definition GetReinterpretInterval (object : CachedSurface.t) : icl.interval :=
  icl.right_open
    (wrap64 (CachedSurface.GetCacheAddr object + 1))
    (wrap64 (wrap64 (CachedSurface.GetCacheAddr object
                     + CachedSurface.GetMemorySize object) - 1)).

(** A null [Surface] is [None]; dereferencing a pointer that is not in the
    heap has no result. *)
Definition RegisterReinterpretSurface (c : t) (reinterpret_surface : Surface)
  : option t :=
  object ← heap c !! reinterpret_surface;
  let interval := GetReinterpretInterval object in
  let c := with_reinterpreted_surfaces
             (icl.insert (interval, reinterpret_surface)
                         (reinterpreted_surfaces c)) c in
  Some (with_heap
          (<[reinterpret_surface := CachedSurface.MarkReinterpreted object]>
             (heap c)) c).

(** [SurfaceInterval interval{addr}] is the interval of the single address
    [addr]; the loop returns at the first segment that overlaps it. *)
Definition CollideOnReinterpretedSurface (c : t) (addr : Z)
  : option Surface :=
  icl.find addr (reinterpreted_surfaces c).

Definition Register (c : t) (object : Surface) : option t :=
  Some (RasterizerCache_Register c object).

Definition erase_reinterpreted (c : t) (o : CachedSurface.t) : t :=
  if CachedSurface.IsReinterpreted o then
    let interval := GetReinterpretInterval o in
    with_reinterpreted_surfaces
      (icl.erase interval (reinterpreted_surfaces c)) c
  else c.

Definition Unregister (c : t) (object : Surface) : option t :=
  o ← heap c !! object;
  let c := erase_reinterpreted c o in
  Some (RasterizerCache_Unregister c object).

(** Calls of the inline member functions of a surface through a [Surface]
    pointer. *)
Definition MarkReinterpreted (c : t) (s : Surface) : option t :=
  o ← heap c !! s;
  Some (with_heap (<[s := CachedSurface.MarkReinterpreted o]> (heap c)) c).

Definition MarkForReload (c : t) (s : Surface) (reload : bool) : option t :=
  o ← heap c !! s;
  Some (with_heap (<[s := CachedSurface.MarkForReload o reload]> (heap c)) c).

(** The operations of the header that change the state. *)
Inductive op :=
| OpRegister (s : Surface)
| OpUnregister (s : Surface)
| OpRegisterReinterpretSurface (s : Surface)
| OpMarkReinterpreted (s : Surface)
| OpMarkForReload (s : Surface) (reload : bool).

Definition run_op (c : t) (o : op) : option t :=
  match o with
  | OpRegister s => Register c s
  | OpUnregister s => Unregister c s
  | OpRegisterReinterpretSurface s => RegisterReinterpretSurface c s
  | OpMarkReinterpreted s => MarkReinterpreted c s
  | OpMarkForReload s reload => MarkForReload c s reload
  end.

Fixpoint run (c : t) (ops : list op) : option t :=
  match ops with
  | [] => Some c
  | o :: ops' => c' ← run_op c o; run c' ops'
  end.

Definition step (c c' : t) : Prop := exists o, run_op c o = Some c'.

(** A cache right after construction: nothing registered, nothing
    reinterpreted, and surfaces as their constructor leaves them. *)
Definition initial (c : t) : Prop :=
  store c = ∅ /\ reinterpreted_surfaces c = [] /\
  forall s o, heap c !! s = Some o -> CachedSurface.fresh o.

Definition reachable (c : t) : Prop :=
  exists c0, initial c0 /\ rtc step c0 c.

(** What an operation does to the surface behind a pointer: the address
    range stays, and a set reinterpreted flag stays set. *)
Definition evolves (o o' : CachedSurface.t) : Prop :=
  GetReinterpretInterval o' = GetReinterpretInterval o /\
  (CachedSurface.IsReinterpreted o = true ->
   CachedSurface.IsReinterpreted o' = true).

(** Every address of the tracker is associated with a surface of the heap
    that is flagged reinterpreted and whose range contains the address. *)
Definition tracker_sound (c : t) : Prop :=
  forall x s,
    CollideOnReinterpretedSurface c x = Some s ->
    exists o,
      heap c !! s = Some o /\
      CachedSurface.IsReinterpreted o = true /\
      icl.contains (GetReinterpretInterval o) x = true.

(** The same for the segments that the tracker stores: none is empty and
    each lies within the range of a flagged surface of the heap. *)
Definition segments_sound (c : t) : Prop :=
  forall j s,
    In (j, s) (reinterpreted_surfaces c) ->
    icl.is_empty j = false /\
    exists o,
      heap c !! s = Some o /\
      CachedSurface.IsReinterpreted o = true /\
      icl.subinterval j (GetReinterpretInterval o).

End RasterizerCacheOpenGL.

(** ** The statements of the specification

    The properties of the specification document, worded as it words them,
    to be compared with the functions above. *)

Module Spec.

(** "the number of format-default-height blocks needed" for a height [a]
    with blocks of height [h]: [a / h] rounded up. *)
Definition blocks_needed (a h : Z) : Z :=
  a / h + (if a mod h =? 0 then 0 else 1).

(** "format, component type, width, height, target, depth, and tiling flag
    match, and - only when tiled - block height, block depth, and tile
    spacing also match". *)
Definition compatible (p q : SurfaceParams.t) : Prop :=
  SurfaceParams.pixel_format p = SurfaceParams.pixel_format q /\
  SurfaceParams.component_type p = SurfaceParams.component_type q /\
  SurfaceParams.width p = SurfaceParams.width q /\
  SurfaceParams.height p = SurfaceParams.height q /\
  SurfaceParams.target p = SurfaceParams.target q /\
  SurfaceParams.depth p = SurfaceParams.depth q /\
  SurfaceParams.is_tiled p = SurfaceParams.is_tiled q /\
  (SurfaceParams.is_tiled p = true ->
   SurfaceParams.block_height p = SurfaceParams.block_height q /\
   SurfaceParams.block_depth p = SurfaceParams.block_depth q /\
   SurfaceParams.tile_width_spacing p = SurfaceParams.tile_width_spacing q).

(** The same with the field that [IsCompatibleSurface] reads, the surface
    type [type], in the place of the component type. *)
Definition compatible_by_type (p q : SurfaceParams.t) : Prop :=
  SurfaceParams.pixel_format p = SurfaceParams.pixel_format q /\
  SurfaceParams.type p = SurfaceParams.type q /\
  SurfaceParams.width p = SurfaceParams.width q /\
  SurfaceParams.height p = SurfaceParams.height q /\
  SurfaceParams.target p = SurfaceParams.target q /\
  SurfaceParams.depth p = SurfaceParams.depth q /\
  SurfaceParams.is_tiled p = SurfaceParams.is_tiled q /\
  (SurfaceParams.is_tiled p = true ->
   SurfaceParams.block_height p = SurfaceParams.block_height q /\
   SurfaceParams.block_depth p = SurfaceParams.block_depth q /\
   SurfaceParams.tile_width_spacing p = SurfaceParams.tile_width_spacing q).

(** The fields of a descriptor that are neither an address ([host_ptr],
    [gpu_addr]), nor render target specific ([rt]), nor the classification
    ([identity]). *)
Definition shape (p : SurfaceParams.t) :=
  (SurfaceParams.is_tiled p, SurfaceParams.block_width p,
   SurfaceParams.block_height p, SurfaceParams.block_depth p,
   SurfaceParams.tile_width_spacing p, SurfaceParams.pixel_format p,
   SurfaceParams.component_type p, SurfaceParams.type p,
   SurfaceParams.width p, SurfaceParams.height p, SurfaceParams.depth p,
   SurfaceParams.unaligned_height p, SurfaceParams.pitch p,
   SurfaceParams.target p, SurfaceParams.max_mip_level p,
   SurfaceParams.is_layered p, SurfaceParams.is_array p,
   SurfaceParams.srgb_conversion p, SurfaceParams.size_in_bytes p,
   SurfaceParams.size_in_bytes_gl p).

(** "differing only in address or render-target fields" (or
    classification). *)
Definition differ_only_in_address_rt_class (p q : SurfaceParams.t) : Prop :=
  shape p = shape q.

(** Differing only in the GPU address, the render target fields or the
    classification: the host pointer is the same as well. *)
Definition differ_only_in_gpu_addr_rt_class (p q : SurfaceParams.t) : Prop :=
  shape p = shape q /\ SurfaceParams.host_ptr p = SurfaceParams.host_ptr q.

(** "[SizeInBytesRaw] divided by [compression_factor^2] always equals the
    uncompressed layout size for the same dimensions", given the format
    tables and the layout size function. *)
Definition size_round_trip
    (GetCompressionFactor GetBytesPerPixel : PixelFormat -> Z)
    (CalculateSize : bool -> Z -> Z -> Z -> Z -> Z -> Z -> Z)
    (p : SurfaceParams.t) : Prop :=
  forall r,
    SurfaceParams.SizeInBytesRaw GetCompressionFactor GetBytesPerPixel
      CalculateSize p false = Some r ->
    r / (GetCompressionFactor (SurfaceParams.pixel_format p)
         * GetCompressionFactor (SurfaceParams.pixel_format p))
    = CalculateSize true (GetBytesPerPixel (SurfaceParams.pixel_format p))
        (SurfaceParams.width p) (SurfaceParams.height p)
        (SurfaceParams.depth p) (SurfaceParams.block_height p)
        (SurfaceParams.block_depth p).

(** The sizes [f 0], ..., [f (n - 1)] added up without any wrap-around. *)
Definition level_sum (f : Z -> Z) (n : Z) : Z :=
  fold_left (fun total i => total + f i) (seqZ 0 n) 0.

(** "an interval exists for a range iff the mapped entry's reinterpreted
    flag is set": [s] has an interval when some address of its range is
    associated with [s]. *)
Definition has_interval (c : RasterizerCacheOpenGL.t)
    (s : RasterizerCacheOpenGL.Surface) (o : CachedSurface.t) : Prop :=
  exists x,
    icl.contains (RasterizerCacheOpenGL.GetReinterpretInterval o) x = true /\
    RasterizerCacheOpenGL.CollideOnReinterpretedSurface c x = Some s.

Definition interval_iff_flag (c : RasterizerCacheOpenGL.t) : Prop :=
  forall s o,
    RasterizerCacheOpenGL.heap c !! s = Some o ->
    (has_interval c s o <-> CachedSurface.IsReinterpreted o = true).

(** "an address x collides with the entry exactly when x lies in that
    interval", for the state [c'] after the entry [s], with object [o], has
    been registered. *)
Definition collides_exactly_in_interval (c' : RasterizerCacheOpenGL.t)
    (s : RasterizerCacheOpenGL.Surface) (o : CachedSurface.t) : Prop :=
  forall x,
    RasterizerCacheOpenGL.CollideOnReinterpretedSurface c' x = Some s
    <-> CachedSurface.cache_addr o < x
        < CachedSurface.cache_addr o + CachedSurface.memory_size o - 1.

(** "no interval referencing that entry": no address of the tracker is
    associated with the entry, and no segment stored in it carries the
    entry. *)
Definition unreferenced (c : RasterizerCacheOpenGL.t)
    (s : RasterizerCacheOpenGL.Surface) : Prop :=
  (forall x,
     RasterizerCacheOpenGL.CollideOnReinterpretedSurface c x <> Some s) /\
  (forall j, ~ In (j, s) (RasterizerCacheOpenGL.reinterpreted_surfaces c)).

End Spec.

(** ** Sample inputs *)

Module Sample.

(** A tiled 256x256 two-dimensional surface. *)
Definition surface : SurfaceParams.t :=
  SurfaceParams.mk true 1 16 1 1 0 1 0 256 256 1 256 0 Texture2D Uploaded 1
    false false false 4096 8192 262144 262144 (SurfaceParams.mk_rt 0 0 0 0 0).

Definition with_component_type (ct : ComponentType) (p : SurfaceParams.t)
  : SurfaceParams.t :=
  let 'SurfaceParams.mk a b c d e f _ h i j k l m n id o q r s u v w x y := p in
  SurfaceParams.mk a b c d e f ct h i j k l m n id o q r s u v w x y.

Definition with_host_ptr (ptr : Z) (p : SurfaceParams.t) : SurfaceParams.t :=
  let 'SurfaceParams.mk a b c d e f g h i j k l m n id o q r s _ v w x y := p in
  SurfaceParams.mk a b c d e f g h i j k l m n id o q r s ptr v w x y.

(** A three-dimensional surface of depth 64 and height 512. *)
Definition volume : SurfaceParams.t :=
  SurfaceParams.mk true 1 16 1 1 0 1 0 256 512 64 512 0 Texture3D Uploaded 4
    false false false 4096 8192 0 0 (SurfaceParams.mk_rt 0 0 0 0 0).

(** Format tables for a block-compressed format: compression factor 4,
    8 bytes per block, blocks one row high; and a layout size that is the
    plain product of the dimensions. *)
Definition GetCompressionFactor (f : PixelFormat) : Z := 4.
Definition GetBytesPerPixel (f : PixelFormat) : Z := 8.
Definition GetDefaultBlockHeight (f : PixelFormat) : Z := 1.
Definition CalculateSize (tiled : bool) (bpp w h d bh bd : Z) : Z :=
  bpp * w * h * d.

(** The number of trailing zero bits of a positive number. *)
Fixpoint trailing_zeroes (n : positive) : Z :=
  match n with
  | xO n' => 1 + trailing_zeroes n'
  | _ => 0
  end.

Definition CountTrailingZeroes32 (x : Z) : Z :=
  match x with
  | Zpos n => trailing_zeroes n
  | _ => 32
  end.

(** A mip level of four bytes per pixel, whatever the layout. *)
Definition InnerMipmapMemorySize (p : SurfaceParams.t) (mip_level : Z)
    (force_gl layer_only uncompressed : bool) : Z :=
  SurfaceParams.MipWidth p mip_level * SurfaceParams.MipHeight p mip_level * 4.

(** Two surfaces: [1] at address 4096 with 256 bytes, [2] inside the range
    of [1], at address 4160 with 64 bytes. *)
Definition entry (addr size : Z) : CachedSurface.t :=
  CachedSurface.mk surface size size false false addr addr.

Definition cache : RasterizerCacheOpenGL.t :=
  RasterizerCacheOpenGL.mk
    (<[2%positive := entry 4160 64]> (<[1%positive := entry 4096 256]> ∅))
    ∅ [].

(** Surface [1] is registered, reinterpreted, unregistered (as when it is
    moved to the surface reserve) and registered again (as when it is taken
    back from the reserve). *)
Definition reuse : list RasterizerCacheOpenGL.op :=
  [RasterizerCacheOpenGL.OpRegister 1;
   RasterizerCacheOpenGL.OpRegisterReinterpretSurface 1;
   RasterizerCacheOpenGL.OpUnregister 1;
   RasterizerCacheOpenGL.OpRegister 1]%positive.

(** Both surfaces are registered and surface [1], whose range contains the
    range of surface [2], is reinterpreted. *)
Definition overlap : list RasterizerCacheOpenGL.op :=
  [RasterizerCacheOpenGL.OpRegister 1;
   RasterizerCacheOpenGL.OpRegister 2;
   RasterizerCacheOpenGL.OpRegisterReinterpretSurface 1]%positive.

End Sample.

(** * Properties *)

(** ** The halving loops *)

Lemma halve_while_eq cond b :
  halve_while cond b =
  if decide (1 < b) then
    if cond b then halve_while cond (Z.shiftr b 1) else b
  else b.
Proof.
  etransitivity; [apply halve_while_equation_1|].
  destruct (Z_lt_dec 1 b); simpl; case_decide; try lia; reflexivity.
Qed.

Lemma shiftr_1 b : Z.shiftr b 1 = b / 2.
Proof. rewrite Z.shiftr_div_pow2 by lia. reflexivity. Qed.

(** The loop of the code is the loop "halve while greater than 1 and
    [cond]" of the relation. *)
Lemma halve_while_halving cond b :
  halving (fun c => (1 <? c) && cond c) b (halve_while cond b).
Proof.
  funelim (halve_while cond b).
  - destruct (cond b) eqn:Hc.
    + apply halving_step.
      * apply andb_true_intro. split; [apply Z.ltb_lt; lia | exact Hc].
      * rewrite <- shiftr_1. assumption.
    + apply halving_stop. rewrite Hc. apply andb_false_r.
  - apply halving_stop. apply andb_false_intro1. apply Z.ltb_ge. lia.
Qed.

Lemma halving_det cond b r1 r2 :
  halving cond b r1 -> halving cond b r2 -> r1 = r2.
Proof.
  induction 1 as [b Hb | b r Hb _ IH]; inversion 1; subst;
    try congruence; auto.
Qed.

Lemma halving_le cond b r : halving cond b r -> 0 < r -> 0 < b /\ r <= b.
Proof.
  induction 1 as [b Hb | b r Hb _ IH]; intros Hr; [lia|].
  specialize (IH Hr). Z.div_mod_to_equations. lia.
Qed.

(** Only the values that the loop visits matter. *)
Lemma halving_agree (c1 c2 : Z -> bool) b r :
  halving c1 b r ->
  (forall x, 0 < x <= b -> c1 x = c2 x) ->
  0 < r ->
  halving c2 b r.
Proof.
  induction 1 as [b Hb | b r Hb Hh IH]; intros Hag Hr.
  - apply halving_stop. rewrite <- Hag; [exact Hb | lia].
  - pose proof (halving_le _ _ _ Hh Hr) as [Hpos Hle].
    assert (0 < b /\ b / 2 <= b) as [? ?] by (Z.div_mod_to_equations; lia).
    apply halving_step.
    + rewrite <- Hag; [exact Hb | lia].
    + apply IH; [|exact Hr]. intros x Hx. apply Hag. lia.
Qed.

Lemma halve_while_bounds cond b :
  0 < b -> 0 < halve_while cond b <= b.
Proof.
  funelim (halve_while cond b); intros Hb; [|lia].
  destruct (cond b); [|lia].
  rewrite shiftr_1 in *.
  assert (Hh : 0 < b / 2 <= b) by (Z.div_mod_to_equations; lia).
  match goal with
  | IH : 0 < b / 2 -> _ |- _ => specialize (IH (proj1 Hh))
  end.
  lia.
Qed.

(** ** Arithmetic of the geometry helpers *)

Lemma wrap32_small x : is_u32 x -> wrap32 x = x.
Proof. intros H. apply Z.mod_small. exact H. Qed.

Lemma wrap64_small x : is_u64 x -> wrap64 x = x.
Proof. intros H. apply Z.mod_small. exact H. Qed.

(** [(a + h - 1) / h] is [a / h] rounded up. *)
Lemma round_up_div a h :
  0 < h -> (a + h - 1) / h = Spec.blocks_needed a h.
Proof.
  intros Hh. unfold Spec.blocks_needed.
  pose proof (Z.div_mod a h ltac:(lia)) as Ha.
  pose proof (Z.mod_pos_bound a h Hh) as Hr.
  destruct (Z.eqb_spec (a mod h) 0) as [Hz | Hz]; symmetry.
  - apply (Z.div_unique _ _ _ (h - 1)); lia.
  - apply (Z.div_unique _ _ _ (a mod h - 1)); lia.
Qed.

(** [blocks_needed a h] is the least number of blocks that cover [a]. *)
Lemma blocks_needed_least a h n :
  0 < h -> (a <= n * h <-> Spec.blocks_needed a h <= n).
Proof.
  intros Hh. unfold Spec.blocks_needed.
  destruct (Z.eqb_spec (a mod h) 0); Z.div_mod_to_equations; nia.
Qed.

(** A mip dimension of a level above 0 is at least 1 and fits 31 bits. *)
Lemma mip_dim_bounds x m :
  is_u32 x -> 0 < m -> 1 <= Z.max 1 (Z.shiftr x m) < 2 ^ 31.
Proof.
  intros Hx Hm. rewrite Z.shiftr_div_pow2 by lia.
  assert (x / 2 ^ m <= x / 2).
  { apply Z.div_le_compat_l; [apply Hx|].
    split; [lia|]. replace m with (1 + (m - 1)) by lia.
    rewrite Z.pow_add_r by lia. change (2 ^ 1) with 2.
    assert (0 < 2 ^ (m - 1)) by (apply Z.pow_pos_nonneg; lia). lia. }
  assert (x / 2 < 2 ^ 31)
    by (unfold is_u32 in Hx; apply Z.div_lt_upper_bound; [lia|];
        change (2 * 2 ^ 31) with (2 ^ 32); lia).
  change (2 ^ 31) with 2147483648 in *. lia.
Qed.

(** ** Descriptor geometry *)

Section GeometryFacts.

Variable GetCompressionFactor : PixelFormat -> Z.
Variable GetBytesPerPixel : PixelFormat -> Z.
Variable GetDefaultBlockHeight : PixelFormat -> Z.
Variable CalculateSize : bool -> Z -> Z -> Z -> Z -> Z -> Z -> Z.

Local Abbreviation MipHeight := SurfaceParams.MipHeight.
Local Abbreviation MipDepth := SurfaceParams.MipDepth.
Local Abbreviation MipBlockHeight :=
  (SurfaceParams.MipBlockHeight GetDefaultBlockHeight).
Local Abbreviation MipBlockDepth :=
  (SurfaceParams.MipBlockDepth GetDefaultBlockHeight).
Local Abbreviation SizeInBytesRaw :=
  (SurfaceParams.SizeInBytesRaw GetCompressionFactor GetBytesPerPixel
     CalculateSize).

(** C7: for a mip level [m > 0], [MipWidth(m)] is [max(1, width >> m)],
    and [MipDepth(m)] is [depth] for a layered surface (the depth is not
    shifted) and [max(1, depth >> m)] otherwise. *)
Theorem MipWidth_MipDepth_spec (p : SurfaceParams.t) (m : Z) :
  0 < m ->
  SurfaceParams.MipWidth p m = Z.max 1 (Z.shiftr (SurfaceParams.width p) m) /\
  (SurfaceParams.is_layered p = true ->
   MipDepth p m = SurfaceParams.depth p) /\
  (SurfaceParams.is_layered p = false ->
   MipDepth p m = Z.max 1 (Z.shiftr (SurfaceParams.depth p) m)).
Proof.
  intros _. unfold SurfaceParams.MipWidth, SurfaceParams.MipDepth.
  split; [reflexivity|].
  split; intros ->; reflexivity.
Qed.

(** The block count that [MipBlockHeight] computes does not wrap around and
    is the number of blocks needed for the height of the mip level. *)
Lemma blocks_in_y_spec (p : SurfaceParams.t) (m : Z) :
  is_u32 (SurfaceParams.height p) ->
  0 < GetDefaultBlockHeight (SurfaceParams.pixel_format p) <= 2 ^ 31 ->
  0 < m ->
  udiv (wrap32 (MipHeight p m
                + GetDefaultBlockHeight (SurfaceParams.pixel_format p) - 1))
       (GetDefaultBlockHeight (SurfaceParams.pixel_format p))
  = Some (Spec.blocks_needed (MipHeight p m)
            (GetDefaultBlockHeight (SurfaceParams.pixel_format p))).
Proof.
  intros Hh Hb Hm. unfold udiv, SurfaceParams.MipHeight.
  pose proof (mip_dim_bounds _ _ Hh Hm) as Hd.
  set (a := Z.max 1 _) in *.
  set (h := GetDefaultBlockHeight _) in *.
  destruct (Z.eqb_spec h 0) as [|_]; [lia|].
  rewrite wrap32_small, round_up_div; [reflexivity | lia |].
  unfold is_u32. change (2 ^ 32) with (2 ^ 31 + 2 ^ 31). lia.
Qed.

(** For a level above 0, [MipBlockHeight] returns the result of its loop,
    run on the number of blocks needed. *)
Lemma MipBlockHeight_value (p : SurfaceParams.t) (m : Z) :
  is_u32 (SurfaceParams.height p) ->
  0 < GetDefaultBlockHeight (SurfaceParams.pixel_format p) <= 2 ^ 31 ->
  0 < m ->
  MipBlockHeight p m
  = Some (halve_while
            (fun bh =>
               Spec.blocks_needed (MipHeight p m)
                 (GetDefaultBlockHeight (SurfaceParams.pixel_format p))
               <=? wrap32 (bh * 4))
            16).
Proof.
  intros Hh Hb Hm. unfold SurfaceParams.MipBlockHeight.
  destruct (Z.eqb_spec m 0) as [|_]; [lia|].
  cbv zeta. rewrite blocks_in_y_spec by assumption. reflexivity.
Qed.

(** C8: for a mip level [m > 0], [MipBlockHeight(m)] is the result of
    starting at 16 and halving while the candidate is greater than 1 and
    the number of default-height blocks needed for the height of the mip
    level is at most 4 times the candidate; [MipBlockHeight(0)] is the
    stored block height. *)
Theorem MipBlockHeight_spec (p : SurfaceParams.t) (m : Z) :
  is_u32 (SurfaceParams.height p) ->
  0 < GetDefaultBlockHeight (SurfaceParams.pixel_format p) <= 2 ^ 31 ->
  0 < m ->
  MipBlockHeight p 0 = Some (SurfaceParams.block_height p) /\
  exists bh,
    MipBlockHeight p m = Some bh /\
    halving
      (fun c =>
         (1 <? c) &&
         (Spec.blocks_needed (MipHeight p m)
            (GetDefaultBlockHeight (SurfaceParams.pixel_format p))
          <=? 4 * c))
      16 bh.
Proof.
  intros Hh Hb Hm. split; [reflexivity|].
  eexists. split; [apply MipBlockHeight_value; assumption|].
  eapply halving_agree; [apply halve_while_halving | | ].
  - intros x Hx. cbv beta. rewrite wrap32_small.
    + rewrite (Z.mul_comm x 4). reflexivity.
    + unfold is_u32. change (2 ^ 32) with 4294967296. lia.
  - apply halve_while_bounds. lia.
Qed.

(** C9: for a mip level [m > 0], [MipBlockDepth(m)] is 1 for a layered
    surface; otherwise it is the result of starting at 32 and halving while
    twice [MipDepth(m)] is at most the candidate, except that a candidate
    left at 32 becomes 16 when [MipBlockHeight(m)] is at least 4. *)
Theorem MipBlockDepth_spec (p : SurfaceParams.t) (m : Z) :
  is_u32 (SurfaceParams.depth p) ->
  is_u32 (SurfaceParams.height p) ->
  0 < GetDefaultBlockHeight (SurfaceParams.pixel_format p) <= 2 ^ 31 ->
  0 < m ->
  (SurfaceParams.is_layered p = true -> MipBlockDepth p m = Some 1) /\
  (SurfaceParams.is_layered p = false ->
   exists bd bh,
     halving (fun c => 2 * MipDepth p m <=? c) 32 bd /\
     MipBlockHeight p m = Some bh /\
     MipBlockDepth p m = Some (if (bd =? 32) && (4 <=? bh) then 16 else bd)).
Proof.
  intros Hd Hh Hb Hm.
  pose proof (MipBlockHeight_value p m Hh Hb Hm) as Hbh.
  set (bh := halve_while _ 16) in Hbh.
  unfold SurfaceParams.MipBlockDepth.
  destruct (Z.eqb_spec m 0) as [|_]; [lia|].
  split; intros Hl; rewrite Hl; [reflexivity|].
  cbv zeta. unfold SurfaceParams.MipDepth. rewrite Hl.
  pose proof (mip_dim_bounds _ _ Hd Hm) as Hmd.
  set (md := Z.max 1 _) in *.
  set (bd := halve_while _ 32).
  exists bd, bh. split; [|split; [exact Hbh|]].
  - eapply halving_agree; [apply halve_while_halving | | ].
    + intros x Hx. cbv beta. rewrite wrap32_small.
      * destruct (Z.ltb_spec 1 x); [rewrite Z.mul_comm; reflexivity|].
        symmetry. apply Z.leb_gt. lia.
      * unfold is_u32. change (2 ^ 32) with (2 * 2 ^ 31). lia.
    + apply halve_while_bounds. lia.
  - destruct (Z.eqb_spec bd 32) as [Hbd | Hbd]; [|reflexivity].
    rewrite Hbh. cbn [mbind option_bind andb].
    destruct (4 <=? bh); [reflexivity | rewrite Hbd; reflexivity].
Qed.

End GeometryFacts.

Lemma MipWidth_MipDepth_spec_witness :
  0 < 2 /\
  SurfaceParams.MipWidth Sample.volume 2 = 64 /\
  SurfaceParams.MipDepth Sample.volume 2 = 16.
Proof.
  split; [lia|].
  destruct (MipWidth_MipDepth_spec Sample.volume 2 ltac:(lia))
    as (Hw & _ & Hd).
  split; [rewrite Hw | rewrite Hd]; reflexivity.
Defined.

Lemma MipBlockHeight_spec_witness :
  SurfaceParams.MipBlockHeight Sample.GetDefaultBlockHeight Sample.volume 0
  = Some 16 /\
  exists bh,
    SurfaceParams.MipBlockHeight Sample.GetDefaultBlockHeight Sample.volume 3
    = Some bh /\
    halving (fun c => (1 <? c) && (Spec.blocks_needed 64 1 <=? 4 * c)) 16 bh.
Proof.
  apply (MipBlockHeight_spec Sample.GetDefaultBlockHeight Sample.volume 3);
    unfold is_u32, Sample.GetDefaultBlockHeight; simpl; lia.
Defined.

Lemma MipBlockDepth_spec_witness :
  exists bd bh,
    halving (fun c => 2 * 32 <=? c) 32 bd /\
    SurfaceParams.MipBlockHeight Sample.GetDefaultBlockHeight Sample.volume 1
    = Some bh /\
    SurfaceParams.MipBlockDepth Sample.GetDefaultBlockHeight Sample.volume 1
    = Some (if (bd =? 32) && (4 <=? bh) then 16 else bd).
Proof.
  apply (MipBlockDepth_spec Sample.GetDefaultBlockHeight Sample.volume 1);
    unfold is_u32, Sample.GetDefaultBlockHeight; simpl; try lia; reflexivity.
Defined.

(** The loop results in closed form. *)
Example MipBlockHeight_volume_3 :
  SurfaceParams.MipBlockHeight Sample.GetDefaultBlockHeight Sample.volume 3
  = Some 8.
Proof. reflexivity. Qed.

Example MipBlockDepth_volume_1 :
  SurfaceParams.MipBlockDepth Sample.GetDefaultBlockHeight Sample.volume 1
  = Some 16.
Proof. reflexivity. Qed.

Example MipBlockDepth_volume_3 :
  SurfaceParams.MipBlockDepth Sample.GetDefaultBlockHeight Sample.volume 3
  = Some 8.
Proof. reflexivity. Qed.

(** ** Byte sizes *)

Section SizeFacts.

Variable GetCompressionFactor : PixelFormat -> Z.
Variable GetBytesPerPixel : PixelFormat -> Z.
Variable CalculateSize : bool -> Z -> Z -> Z -> Z -> Z -> Z -> Z.

Local Abbreviation SizeInBytesRaw :=
  (SurfaceParams.SizeInBytesRaw GetCompressionFactor GetBytesPerPixel
     CalculateSize).

(** The division of [SizeInBytesRaw] is defined and its divisor does not
    wrap around for a compression factor that fits 16 bits. *)
Lemma SizeInBytesRaw_value (p : SurfaceParams.t) :
  0 < GetCompressionFactor (SurfaceParams.pixel_format p) < 2 ^ 16 ->
  SizeInBytesRaw p false
  = Some (SurfaceParams.uncompressed_size GetBytesPerPixel CalculateSize
            p false
          / (GetCompressionFactor (SurfaceParams.pixel_format p)
             * GetCompressionFactor (SurfaceParams.pixel_format p))).
Proof.
  intros Hcf. unfold SurfaceParams.SizeInBytesRaw, udiv. cbv zeta.
  set (cf := GetCompressionFactor _) in *.
  assert (0 < cf * cf < 2 ^ 32)
    by (change (2 ^ 32) with (2 ^ 16 * 2 ^ 16); nia).
  rewrite wrap32_small by (unfold is_u32; lia).
  destruct (Z.eqb_spec (cf * cf) 0); [lia | reflexivity].
Qed.

(** C6, as amended: for a tiled descriptor, [SizeInBytesRaw()] is the
    uncompressed layout size of the same dimensions divided, rounding down,
    by the square of the compression factor; multiplied by that square it
    gives the uncompressed size back when the square divides it. *)
Theorem SizeInBytesRaw_spec (p : SurfaceParams.t) :
  SurfaceParams.is_tiled p = true ->
  0 < GetCompressionFactor (SurfaceParams.pixel_format p) < 2 ^ 16 ->
  let cf := GetCompressionFactor (SurfaceParams.pixel_format p) in
  let size :=
    CalculateSize true (GetBytesPerPixel (SurfaceParams.pixel_format p))
      (SurfaceParams.width p) (SurfaceParams.height p) (SurfaceParams.depth p)
      (SurfaceParams.block_height p) (SurfaceParams.block_depth p) in
  exists r,
    SizeInBytesRaw p false = Some r /\
    r = size / (cf * cf) /\
    r * (cf * cf) <= size < (r + 1) * (cf * cf) /\
    (size mod (cf * cf) = 0 -> r * (cf * cf) = size).
Proof.
  intros Ht Hcf cf size.
  assert (Hsq : 0 < cf * cf < 2 ^ 32).
  { fold cf in Hcf. change (2 ^ 32) with (2 ^ 16 * 2 ^ 16). nia. }
  exists (size / (cf * cf)).
  split; [|split; [reflexivity|]].
  - rewrite SizeInBytesRaw_value by exact Hcf.
    unfold SurfaceParams.uncompressed_size. rewrite Ht. reflexivity.
  - pose proof (Z.div_mod size (cf * cf) ltac:(lia)).
    pose proof (Z.mod_pos_bound size (cf * cf) ltac:(lia)).
    split; [lia|]. intros Hz. lia.
Qed.

(** With a compression factor above 1 and a non-empty surface, dividing
    [SizeInBytesRaw()] once more by the square never gives the uncompressed
    size. *)
Lemma size_round_trip_compressed (p : SurfaceParams.t) :
  1 < GetCompressionFactor (SurfaceParams.pixel_format p) < 2 ^ 16 ->
  0 < CalculateSize (SurfaceParams.is_tiled p)
        (GetBytesPerPixel (SurfaceParams.pixel_format p))
        (SurfaceParams.width p) (SurfaceParams.height p) (SurfaceParams.depth p)
        (SurfaceParams.block_height p) (SurfaceParams.block_depth p) ->
  SurfaceParams.is_tiled p = true ->
  ~ Spec.size_round_trip GetCompressionFactor GetBytesPerPixel CalculateSize p.
Proof.
  intros Hcf Hsize Ht Hrt. rewrite Ht in Hsize.
  pose proof (SizeInBytesRaw_value p ltac:(lia)) as Hr.
  specialize (Hrt _ Hr).
  unfold SurfaceParams.uncompressed_size in Hrt. rewrite Ht in Hrt.
  set (cf := GetCompressionFactor _) in *.
  set (size := CalculateSize _ _ _ _ _ _ _) in *.
  assert (1 < cf * cf) by nia.
  assert (size / (cf * cf) < size) by (apply Z.div_lt; lia).
  assert (0 <= size / (cf * cf)) by (apply Z.div_pos; lia).
  assert (size / (cf * cf) / (cf * cf) <= size / (cf * cf))
    by (apply Z.div_le_upper_bound; nia).
  lia.
Qed.

End SizeFacts.

Lemma SizeInBytesRaw_spec_witness :
  exists r,
    SurfaceParams.SizeInBytesRaw Sample.GetCompressionFactor
      Sample.GetBytesPerPixel Sample.CalculateSize Sample.surface false
    = Some r /\
    r = 524288 / (4 * 4) /\
    r * (4 * 4) <= 524288 < (r + 1) * (4 * 4) /\
    (524288 mod (4 * 4) = 0 -> r * (4 * 4) = 524288).
Proof.
  apply (SizeInBytesRaw_spec Sample.GetCompressionFactor
           Sample.GetBytesPerPixel Sample.CalculateSize Sample.surface);
    [reflexivity | unfold Sample.GetCompressionFactor; lia].
Defined.

(** C6, as stated, fails for a tiled 256x256 surface of a format with
    compression factor 4: the uncompressed size is 524288 bytes,
    [SizeInBytesRaw()] is 32768, and 32768 / 16 is 2048. *)
Lemma size_round_trip_fails :
  SurfaceParams.is_tiled Sample.surface = true /\
  SurfaceParams.SizeInBytesRaw Sample.GetCompressionFactor
    Sample.GetBytesPerPixel Sample.CalculateSize Sample.surface false
  = Some 32768 /\
  ~ Spec.size_round_trip Sample.GetCompressionFactor Sample.GetBytesPerPixel
      Sample.CalculateSize Sample.surface.
Proof.
  split; [reflexivity|]. split; [reflexivity|].
  intros H. specialize (H 32768 eq_refl). vm_compute in H. discriminate.
Qed.

(** ** Compatibility of descriptors *)

(** C1, as amended: [IsCompatibleSurface] returns true if and only if pixel
    format, surface type ([type]), width, height, target, depth and tiling
    flag match and, only when the descriptor is tiled, block height, block
    depth and tile width spacing match as well. *)
Theorem IsCompatibleSurface_spec (p q : SurfaceParams.t) :
  SurfaceParams.IsCompatibleSurface p q = true <-> Spec.compatible_by_type p q.
Proof.
  unfold SurfaceParams.IsCompatibleSurface, Spec.compatible_by_type.
  case_bool_decide as H1.
  - injection H1 as -> -> -> -> -> -> Ht.
    destruct (SurfaceParams.is_tiled p) eqn:Hp; simpl.
    + rewrite bool_decide_eq_true. split.
      * intros [= -> -> ->]. rewrite <- Ht. tauto.
      * intros (_ & _ & _ & _ & _ & _ & _ & Hb).
        destruct (Hb eq_refl) as (-> & -> & ->). reflexivity.
    + split; [|reflexivity]. intros _. rewrite <- Ht.
      repeat split; discriminate.
  - split; [discriminate|].
    intros (? & ? & ? & ? & ? & ? & ? & _). exfalso. apply H1. congruence.
Qed.

(** C1, as stated, fails for two descriptors that differ in the component
    type only: [IsCompatibleSurface] does not read [component_type]. *)
Lemma IsCompatibleSurface_ignores_component_type :
  SurfaceParams.IsCompatibleSurface Sample.surface
    (Sample.with_component_type 2 Sample.surface) = true /\
  ~ (SurfaceParams.IsCompatibleSurface Sample.surface
       (Sample.with_component_type 2 Sample.surface) = true
     <-> Spec.compatible Sample.surface
           (Sample.with_component_type 2 Sample.surface)).
Proof.
  split; [reflexivity|].
  intros [H _]. destruct (H eq_refl) as (_ & Hct & _). discriminate Hct.
Qed.

(** ** Reserve keys *)

(** C2, as amended: two descriptors produce the same reserve key exactly
    when they differ at most in the GPU address [gpu_addr], the render
    target fields [rt] and the classification [identity]; the host pointer
    [host_ptr] stays part of the key. *)
Theorem Create_spec (p q : SurfaceParams.t) :
  Spec.differ_only_in_gpu_addr_rt_class p q
  <-> SurfaceReserveKey.Create p = SurfaceReserveKey.Create q.
Proof.
  unfold Spec.differ_only_in_gpu_addr_rt_class, Spec.shape.
  destruct p, q. unfold SurfaceReserveKey.Create. simpl.
  split.
  - intros [H1 H2]. simpl in H2. injection H1 as <-. subst. reflexivity.
  - intros [= -> -> -> -> -> -> -> -> -> -> -> -> -> -> -> -> -> -> -> -> ->].
    split; reflexivity.
Qed.

(** C2, as stated, fails for two descriptors that differ in the host
    pointer only: [Create] keeps [host_ptr] in the key. *)
Lemma Create_keeps_host_ptr :
  Spec.differ_only_in_address_rt_class Sample.surface
    (Sample.with_host_ptr 12288 Sample.surface) /\
  SurfaceReserveKey.Create Sample.surface
  <> SurfaceReserveKey.Create (Sample.with_host_ptr 12288 Sample.surface).
Proof.
  split; [reflexivity | discriminate].
Qed.

(** ** Interval maps, address by address *)

Section IntervalMapFacts.

Context {V : Type}.

Local Abbreviation covers := icl.covers.

Lemma contains_empty i x : icl.is_empty i = true -> icl.contains i x = false.
Proof.
  unfold icl.is_empty, icl.contains. intros H%Z.leb_le.
  destruct (Z.leb_spec i.1 x), (Z.ltb_spec x i.2); simpl; try reflexivity; lia.
Qed.

Lemma covers_keep l x : covers (icl.keep l) x = covers l x.
Proof.
  induction l as [|k l IH]; [reflexivity|]. simpl.
  destruct (icl.is_empty k) eqn:Hk; simpl; rewrite IH; [|reflexivity].
  rewrite (contains_empty _ _ Hk). reflexivity.
Qed.

Lemma covers_app l1 l2 x : covers (l1 ++ l2) x = covers l1 x || covers l2 x.
Proof. apply existsb_app. Qed.

Lemma covers_cut i j x :
  covers (icl.cut i j) x = icl.contains i x && negb (icl.contains j x).
Proof.
  unfold icl.cut. destruct (icl.is_empty j) eqn:Hj; rewrite covers_keep; simpl.
  - rewrite (contains_empty _ _ Hj). simpl.
    rewrite orb_false_r, andb_true_r. reflexivity.
  - unfold icl.contains, icl.is_empty in *. simpl. apply Z.leb_gt in Hj.
    destruct (Z.leb_spec i.1 x), (Z.ltb_spec x i.2), (Z.leb_spec j.1 x),
      (Z.ltb_spec x j.2), (Z.ltb_spec x (Z.min i.2 j.1)),
      (Z.leb_spec (Z.max i.1 j.2) x); simpl; try reflexivity; lia.
Qed.

Lemma covers_flat_cut pieces j x :
  covers (flat_map (fun k => icl.cut k j) pieces) x
  = covers pieces x && negb (icl.contains j x).
Proof.
  induction pieces as [|k l IH]; [reflexivity|].
  cbn [flat_map]. rewrite covers_app, covers_cut, IH. simpl.
  destruct (icl.contains k x), (covers l x), (icl.contains j x); reflexivity.
Qed.

Lemma covers_uncovered (m : icl.interval_map V) pieces x :
  covers (icl.uncovered m pieces) x
  = covers pieces x && bool_decide (icl.find x m = None).
Proof.
  revert pieces. induction m as [|[j v] m IH]; intros pieces; simpl.
  - rewrite andb_true_r. reflexivity.
  - rewrite IH, covers_flat_cut.
    destruct (icl.contains j x); simpl.
    + rewrite !andb_false_r. reflexivity.
    + rewrite andb_true_r. reflexivity.
Qed.

Lemma find_app (m1 m2 : icl.interval_map V) x :
  icl.find x (m1 ++ m2)
  = match icl.find x m1 with Some v => Some v | None => icl.find x m2 end.
Proof.
  induction m1 as [|[j v] m1 IH]; [reflexivity|]. simpl.
  destruct (icl.contains j x); [reflexivity | exact IH].
Qed.

Lemma find_segments (v : V) l x :
  icl.find x (List.map (fun k => (k, v)) l)
  = if covers l x then Some v else None.
Proof.
  induction l as [|k l IH]; [reflexivity|]. simpl.
  destruct (icl.contains k x); [reflexivity | exact IH].
Qed.

(** [insert] associates the value with the addresses of the interval that
    have no value yet, and changes nothing else. *)
Lemma find_insert i (v : V) (m : icl.interval_map V) x :
  icl.find x (icl.insert (i, v) m)
  = match icl.find x m with
    | Some w => Some w
    | None => if icl.contains i x then Some v else None
    end.
Proof.
  unfold icl.insert. rewrite find_app, find_segments, covers_uncovered,
    covers_keep. simpl.
  destruct (icl.find x m); [reflexivity|].
  rewrite orb_false_r, andb_true_r. reflexivity.
Qed.

(** [erase] removes the addresses of the interval, whatever their value. *)
Lemma find_erase i (m : icl.interval_map V) x :
  icl.find x (icl.erase i m)
  = if icl.contains i x then None else icl.find x m.
Proof.
  unfold icl.erase. induction m as [|[j v] m IH]; simpl.
  - destruct (icl.contains i x); reflexivity.
  - rewrite find_app, find_segments, covers_cut, IH. simpl.
    destruct (icl.contains j x), (icl.contains i x); reflexivity.
Qed.

(** The segments of the maps that [insert] and [erase] return. *)

Lemma in_keep l k :
  In k (icl.keep l) <-> In k l /\ icl.is_empty k = false.
Proof.
  unfold icl.keep. rewrite filter_In, negb_true_iff. reflexivity.
Qed.

Lemma subinterval_trans k j i :
  icl.subinterval k j -> icl.subinterval j i -> icl.subinterval k i.
Proof. unfold icl.subinterval. lia. Qed.

Lemma in_cut i j k :
  In k (icl.cut i j) -> icl.is_empty k = false /\ icl.subinterval k i.
Proof.
  unfold icl.cut. destruct (icl.is_empty j); rewrite in_keep; simpl;
    intros [Hk He]; (split; [exact He|]); unfold icl.subinterval;
    intuition (subst; simpl; lia).
Qed.

Lemma cut_within k i :
  icl.is_empty k = false -> icl.subinterval k i -> icl.cut k i = [].
Proof.
  unfold icl.cut, icl.keep, icl.is_empty, icl.subinterval. simpl.
  intros Hk%Z.leb_gt [H1 H2].
  destruct (Z.leb_spec i.2 i.1); [lia|]. simpl.
  destruct (Z.leb_spec (Z.min k.2 i.1) k.1); [|lia]. simpl.
  destruct (Z.leb_spec k.2 (Z.max k.1 i.2)); [|lia]. reflexivity.
Qed.

Lemma in_uncovered (m : icl.interval_map V) pieces k :
  In k (icl.uncovered m pieces) ->
  exists pc, In pc pieces /\ icl.subinterval k pc.
Proof.
  revert pieces. induction m as [|[j v] m IH]; intros pieces; simpl.
  - intros Hk. exists k. split; [exact Hk | unfold icl.subinterval; lia].
  - intros Hk. destruct (IH _ Hk) as (pc' & Hpc' & Hsub).
    apply in_flat_map in Hpc' as (pc & Hpc & Hcut).
    apply in_cut in Hcut as [_ Hsub'].
    exists pc. split; [exact Hpc | eapply subinterval_trans; eassumption].
Qed.

Lemma uncovered_nonempty (m : icl.interval_map V) pieces k :
  (forall pc, In pc pieces -> icl.is_empty pc = false) ->
  In k (icl.uncovered m pieces) -> icl.is_empty k = false.
Proof.
  revert pieces. induction m as [|[j v] m IH]; intros pieces Hne; simpl.
  - apply Hne.
  - apply IH. intros pc (pc0 & _ & Hcut)%in_flat_map.
    apply in_cut in Hcut. apply Hcut.
Qed.

Lemma in_insert i (v w : V) (m : icl.interval_map V) k :
  In (k, w) (icl.insert (i, v) m) ->
  In (k, w) m \/
  (w = v /\ icl.is_empty k = false /\ icl.subinterval k i).
Proof.
  unfold icl.insert. rewrite in_app_iff, in_map_iff. cbn [fst snd].
  intros [Hm | (k' & [= -> ->] & Hk)]; [left; exact Hm | right].
  split; [reflexivity|]. split.
  - eapply uncovered_nonempty; [|exact Hk].
    intros pc Hpc%in_keep. apply Hpc.
  - destruct (in_uncovered _ _ _ Hk) as (pc & Hpc%in_keep & Hsub).
    destruct Hpc as [[<- | []] _]. exact Hsub.
Qed.

Lemma in_erase i (w : V) (m : icl.interval_map V) k :
  In (k, w) (icl.erase i m) ->
  exists j, In (j, w) m /\ In k (icl.cut j i).
Proof.
  unfold icl.erase. rewrite in_flat_map.
  intros ([j v] & Hm & Hk). apply in_map_iff in Hk as (k' & [= -> ->] & Hk).
  exists j. split; assumption.
Qed.

(** A segment stored in the map associates its value with its addresses
    unless an earlier segment does. *)
Lemma find_some_in (m : icl.interval_map V) x v :
  icl.find x m = Some v ->
  exists j, In (j, v) m /\ icl.contains j x = true.
Proof.
  induction m as [|[j w] m IH]; simpl; [discriminate|].
  destruct (icl.contains j x) eqn:Hj.
  - intros [= ->]. exists j. split; [left; reflexivity | exact Hj].
  - intros H. destruct (IH H) as (j' & Hin & Hc).
    exists j'. split; [right; exact Hin | exact Hc].
Qed.

Lemma contains_subinterval k i x :
  icl.subinterval k i -> icl.contains k x = true -> icl.contains i x = true.
Proof.
  unfold icl.subinterval, icl.contains.
  rewrite !andb_true_iff, !Z.leb_le, !Z.ltb_lt. lia.
Qed.

End IntervalMapFacts.

(** ** The cache: surfaces, store and reinterpretation tracker *)

Module CacheFacts.

Import RasterizerCacheOpenGL.

Lemma evolves_refl o : evolves o o.
Proof. split; auto. Qed.

Lemma evolves_trans o1 o2 o3 : evolves o1 o2 -> evolves o2 o3 -> evolves o1 o3.
Proof. intros [H1 H2] [H3 H4]. split; [congruence | auto]. Qed.

Create HintDb cache.
#[local] Hint Resolve evolves_refl : cache.

Lemma not_in_unregistered c s : s ∉ store (RasterizerCache_Unregister c s).
Proof.
  simpl. apply not_elem_of_difference. right. apply elem_of_singleton.
  reflexivity.
Qed.

Lemma run_op_heap c op c' s o :
  run_op c op = Some c' ->
  heap c !! s = Some o ->
  exists o', heap c' !! s = Some o' /\ evolves o o'.
Proof.
  intros Hop Hs.
  destruct op as [s0 | s0 | s0 | s0 | s0 b]; simpl in Hop;
    unfold Register, Unregister, RegisterReinterpretSurface, MarkReinterpreted,
      MarkForReload in Hop;
    try (destruct (heap c !! s0) as [o0|] eqn:H0; simpl in Hop; [|discriminate]);
    injection Hop as <-; simpl.
  - eauto with cache.
  - unfold erase_reinterpreted. destruct (CachedSurface.IsReinterpreted o0);
      simpl; eauto with cache.
  - destruct (decide (s0 = s)) as [-> | Hne].
    + rewrite lookup_insert_eq. eexists. split; [reflexivity|].
      replace o0 with o by congruence. split; [reflexivity | auto].
    + rewrite lookup_insert_ne by exact Hne. eauto with cache.
  - destruct (decide (s0 = s)) as [-> | Hne].
    + rewrite lookup_insert_eq. eexists. split; [reflexivity|].
      replace o0 with o by congruence. split; [reflexivity | auto].
    + rewrite lookup_insert_ne by exact Hne. eauto with cache.
  - destruct (decide (s0 = s)) as [-> | Hne].
    + rewrite lookup_insert_eq. eexists. split; [reflexivity|].
      replace o0 with o by congruence. split; [reflexivity | auto].
    + rewrite lookup_insert_ne by exact Hne. eauto with cache.
Qed.

Lemma steps_heap c c' s o :
  rtc step c c' ->
  heap c !! s = Some o ->
  exists o', heap c' !! s = Some o' /\ evolves o o'.
Proof.
  intros Hsteps. revert o.
  induction Hsteps as [c | c c1 c2 [op Hop] _ IH]; intros o Hs.
  - eauto with cache.
  - destruct (run_op_heap _ _ _ _ _ Hop Hs) as (o1 & H1 & He1).
    destruct (IH _ H1) as (o2 & H2 & He2).
    exists o2. split; [exact H2 | eapply evolves_trans; eassumption].
Qed.

Lemma run_rtc c ops c' : run c ops = Some c' -> rtc step c c'.
Proof.
  revert c. induction ops as [|op ops IH]; intros c; simpl.
  - intros [= ->]. apply rtc_refl.
  - destruct (run_op c op) as [c1|] eqn:Hop; simpl; [|discriminate].
    intros H. eapply rtc_l; [exists op; exact Hop | apply IH, H].
Qed.

Lemma run_reachable c0 ops c : initial c0 -> run c0 ops = Some c -> reachable c.
Proof. intros Hi Hr. exists c0. split; [exact Hi | apply run_rtc with ops, Hr]. Qed.

Lemma run_op_segments_sound c op c' :
  run_op c op = Some c' -> segments_sound c -> segments_sound c'.
Proof.
  intros Hop Hinv j s Hin.
  assert (Hold : forall j0,
             In (j0, s) (reinterpreted_surfaces c) ->
             icl.subinterval j j0 ->
             exists o, heap c' !! s = Some o /\
               CachedSurface.IsReinterpreted o = true /\
               icl.subinterval j (GetReinterpretInterval o)).
  { intros j0 Hj0 Hsub. destruct (Hinv _ _ Hj0) as (_ & o & Ho & Hf & Hin0).
    destruct (run_op_heap _ _ _ _ _ Hop Ho) as (o' & Ho' & Hi & Hfl).
    exists o'. split; [exact Ho'|]. split; [auto|].
    rewrite Hi. eapply subinterval_trans; eassumption. }
  assert (Hsame : In (j, s) (reinterpreted_surfaces c) ->
             icl.is_empty j = false /\
             exists o, heap c' !! s = Some o /\
               CachedSurface.IsReinterpreted o = true /\
               icl.subinterval j (GetReinterpretInterval o)).
  { intros Hj. split; [apply (Hinv _ _ Hj)|].
    apply (Hold j Hj). unfold icl.subinterval. lia. }
  destruct op as [s0 | s0 | s0 | s0 | s0 b]; simpl in Hop;
    unfold Register, Unregister, RegisterReinterpretSurface, MarkReinterpreted,
      MarkForReload in Hop;
    try (destruct (heap c !! s0) as [o0|] eqn:H0; simpl in Hop; [|discriminate]);
    injection Hop as <-; simpl in *; auto.
  - unfold erase_reinterpreted in *.
    destruct (CachedSurface.IsReinterpreted o0); simpl in *; auto.
    apply in_erase in Hin as (j0 & Hj0 & Hcut).
    apply in_cut in Hcut as [Hne Hsub]. split; [exact Hne | eauto].
  - apply in_insert in Hin as [Hj | (-> & Hne & Hsub)]; auto.
    split; [exact Hne|]. rewrite lookup_insert_eq.
    eexists. split; [reflexivity|]. split; [reflexivity | exact Hsub].
Qed.

(** The tracker only stores segments of flagged surfaces, within their
    range. *)
Lemma reachable_segments_sound c : reachable c -> segments_sound c.
Proof.
  intros (c0 & (_ & Hm & _) & Hsteps).
  assert (H0 : segments_sound c0) by (intros j s; rewrite Hm; intros []).
  clear Hm. induction Hsteps as [c | c c1 c2 [op Hop] _ IH]; [exact H0|].
  apply IH. eapply run_op_segments_sound; eassumption.
Qed.

Lemma segments_tracker_sound c : segments_sound c -> tracker_sound c.
Proof.
  intros Hinv x s Hx. unfold CollideOnReinterpretedSurface in Hx.
  apply find_some_in in Hx as (j & Hj & Hc).
  destruct (Hinv _ _ Hj) as (_ & o & Ho & Hf & Hsub).
  exists o. split; [exact Ho|]. split; [exact Hf|].
  eapply contains_subinterval; eassumption.
Qed.

(** So every address of the tracker belongs to a flagged surface whose
    range contains it. *)
Lemma reachable_tracker_sound c : reachable c -> tracker_sound c.
Proof. intros H. apply segments_tracker_sound, reachable_segments_sound, H. Qed.

(** The reinterpret interval without wrap-around. *)
Lemma GetReinterpretInterval_small o :
  0 <= CachedSurface.cache_addr o < 2 ^ 64 - 1 ->
  1 <= CachedSurface.memory_size o ->
  CachedSurface.cache_addr o + CachedSurface.memory_size o <= 2 ^ 64 ->
  GetReinterpretInterval o
  = icl.right_open (CachedSurface.cache_addr o + 1)
      (CachedSurface.cache_addr o + CachedSurface.memory_size o - 1).
Proof.
  intros Ha Hs Hsum. unfold GetReinterpretInterval, CachedSurface.GetCacheAddr,
    CachedSurface.GetMemorySize.
  set (a := CachedSurface.cache_addr o) in *.
  set (sz := CachedSurface.memory_size o) in *.
  f_equal.
  - apply wrap64_small. unfold is_u64. lia.
  - unfold wrap64. rewrite Zminus_mod_idemp_l. apply Z.mod_small. lia.
Qed.

(** The start address of a surface is never inside its interval, whatever
    the wrap-around. *)
Lemma GetReinterpretInterval_excludes_start o :
  is_u64 (CachedSurface.cache_addr o) ->
  icl.contains (GetReinterpretInterval o) (CachedSurface.cache_addr o) = false.
Proof.
  intros Ha. unfold GetReinterpretInterval, icl.contains, icl.right_open,
    CachedSurface.GetCacheAddr. simpl.
  set (a := CachedSurface.cache_addr o) in *.
  set (hi := wrap64 (wrap64 _ - 1)).
  assert (0 <= hi < 2 ^ 64) by (apply Z.mod_pos_bound; lia).
  unfold is_u64 in Ha.
  destruct (Z.eq_dec a (2 ^ 64 - 1)) as [He | Hne].
  - replace (wrap64 (a + 1)) with 0
      by (rewrite He; reflexivity).
    destruct (Z.ltb_spec a hi); [lia|]. apply andb_false_r.
  - rewrite wrap64_small by (unfold is_u64; lia).
    destruct (Z.leb_spec (a + 1) a); [lia | reflexivity].
Qed.

Lemma contains_right_open lo hi x :
  icl.contains (icl.right_open lo hi) x = true <-> lo <= x < hi.
Proof.
  unfold icl.contains, icl.right_open. simpl.
  rewrite andb_true_iff, Z.leb_le, Z.ltb_lt. reflexivity.
Qed.

(** C3, as amended: an entry at cache address [a] with memory size [s] is
    registered with the interval of the addresses [x] with
    [a < x < a + s - 1]: the start address [a] is left out, so a lookup at
    [a] does not return the entry itself, and an address collides with the
    entry exactly when it lies in that interval and no entry registered
    earlier holds the address already; when the range was free before,
    exactly when it lies in that interval. *)
Theorem GetReinterpretInterval_spec (c : t) (s : Surface) (o : CachedSurface.t) :
  reachable c ->
  heap c !! s = Some o ->
  0 <= CachedSurface.cache_addr o < 2 ^ 64 - 1 ->
  1 <= CachedSurface.memory_size o ->
  CachedSurface.cache_addr o + CachedSurface.memory_size o <= 2 ^ 64 ->
  let a := CachedSurface.cache_addr o in
  let sz := CachedSurface.memory_size o in
  GetReinterpretInterval o = icl.right_open (a + 1) (a + sz - 1) /\
  (forall x,
     icl.contains (GetReinterpretInterval o) x = true <-> a < x < a + sz - 1) /\
  exists c',
    RegisterReinterpretSurface c s = Some c' /\
    CollideOnReinterpretedSurface c' a <> Some s /\
    (forall x,
       CollideOnReinterpretedSurface c' x
       = match CollideOnReinterpretedSurface c x with
         | Some w => Some w
         | None =>
             if icl.contains (GetReinterpretInterval o) x then Some s else None
         end) /\
    ((forall x, a < x < a + sz - 1 ->
                CollideOnReinterpretedSurface c x = None) ->
     forall x,
       CollideOnReinterpretedSurface c' x = Some s <-> a < x < a + sz - 1) /\
    (reinterpreted_surfaces c = [] ->
     3 <= sz ->
     reinterpreted_surfaces c'
     = [(icl.right_open (a + 1) (a + sz - 1), s)]) /\
    (forall x,
       CollideOnReinterpretedSurface c' x = Some s
       <-> a < x < a + sz - 1 /\
           (CollideOnReinterpretedSurface c x = None \/
            CollideOnReinterpretedSurface c x = Some s)).
Proof.
  intros Hreach Hs Ha Hsz Hsum a sz.
  pose proof (GetReinterpretInterval_small o Ha Hsz Hsum) as Hint.
  fold a sz in Hint.
  assert (Hin : forall x,
             icl.contains (GetReinterpretInterval o) x = true
             <-> a < x < a + sz - 1).
  { intros x. rewrite Hint, contains_right_open. lia. }
  split; [exact Hint|]. split; [exact Hin|].
  pose proof (reachable_tracker_sound c Hreach) as Hsound.
  unfold RegisterReinterpretSurface. rewrite Hs. simpl.
  eexists. split; [reflexivity|].
  unfold CollideOnReinterpretedSurface in *. simpl.
  assert (Hfind : forall x,
             icl.find x (icl.insert (GetReinterpretInterval o, s)
                                    (reinterpreted_surfaces c))
             = Some s -> a < x < a + sz - 1).
  { intros x. rewrite find_insert.
    destruct (icl.find x (reinterpreted_surfaces c)) as [w|] eqn:Hw.
    - intros [= ->]. destruct (Hsound _ _ Hw) as (o' & Ho' & _ & Hc).
      apply Hin. congruence.
    - destruct (icl.contains _ x) eqn:Hc; [|discriminate].
      intros _. apply Hin, Hc. }
  split; [|split; [|split; [|split]]].
  - intros Hself. apply Hfind in Hself. lia.
  - intros x. apply find_insert.
  - intros Hfree x. split; [apply Hfind|].
    intros Hx. rewrite find_insert, (Hfree x Hx).
    apply Hin in Hx. rewrite Hx. reflexivity.
  - intros -> Hsz3. rewrite Hint. unfold icl.insert, icl.keep, icl.is_empty.
    simpl. destruct (Z.leb_spec (a + sz - 1) (a + 1)); [lia | reflexivity].
  - intros x. split.
    + intros Hx. split; [apply Hfind, Hx|].
      rewrite find_insert in Hx.
      destruct (icl.find x (reinterpreted_surfaces c)) as [w|];
        [right; exact Hx | left; reflexivity].
    + intros [Hx [Hfree | Hown]]; rewrite find_insert.
      * rewrite Hfree. apply Hin in Hx. rewrite Hx. reflexivity.
      * rewrite Hown. reflexivity.
Qed.

Lemma Sample_cache_initial : initial Sample.cache.
Proof.
  split; [reflexivity|]. split; [reflexivity|].
  intros s o. unfold Sample.cache. simpl.
  rewrite !lookup_insert_Some, lookup_empty.
  intros [[_ <-] | [_ [[_ <-] | [_ ?]]]]; [split; reflexivity .. | discriminate].
Qed.

Lemma GetReinterpretInterval_spec_witness :
  GetReinterpretInterval (Sample.entry 4096 256) = icl.right_open 4097 4351 /\
  exists c',
    RegisterReinterpretSurface Sample.cache 1%positive = Some c' /\
    CollideOnReinterpretedSurface c' 4096 <> Some 1%positive /\
    (forall x,
       CollideOnReinterpretedSurface c' x = Some 1%positive
       <-> 4096 < x < 4351) /\
    reinterpreted_surfaces c' = [(icl.right_open 4097 4351, 1%positive)].
Proof.
  destruct (GetReinterpretInterval_spec Sample.cache 1%positive (Sample.entry 4096 256))
    as (Hi & _ & c' & Hc' & Hself & _ & Hiff & Hseg & _).
  - apply run_reachable with Sample.cache []; [apply Sample_cache_initial|].
    reflexivity.
  - reflexivity.
  - simpl. lia.
  - simpl. lia.
  - simpl. lia.
  - split; [exact Hi|]. exists c'. split; [exact Hc'|].
    split; [exact Hself|]. split.
    + apply Hiff. intros x _. reflexivity.
    + apply Hseg; [reflexivity | simpl; lia].
Defined.

(** C3, as stated, fails for an entry whose range an entry registered
    earlier covers: with surface [1] reinterpreted, registering surface [2]
    (address 4160, 64 bytes) stores nothing for it; address 4170 lies in
    the interval of [2] and collides with surface [1], and no address
    collides with surface [2]. *)
Lemma covered_entry_never_collides :
  exists c1 c2,
    run Sample.cache Sample.overlap = Some c1 /\
    reachable c1 /\
    heap c1 !! 2%positive = Some (Sample.entry 4160 64) /\
    RegisterReinterpretSurface c1 2%positive = Some c2 /\
    CollideOnReinterpretedSurface c2 4170 = Some 1%positive /\
    (forall x, CollideOnReinterpretedSurface c2 x <> Some 2%positive) /\
    ~ Spec.collides_exactly_in_interval c2 2%positive (Sample.entry 4160 64).
Proof.
  eexists. eexists. split; [vm_compute; reflexivity|].
  split.
  { apply run_reachable with Sample.cache Sample.overlap;
      [apply Sample_cache_initial | vm_compute; reflexivity]. }
  split; [vm_compute; reflexivity|].
  split; [vm_compute; reflexivity|].
  split; [reflexivity|].
  assert (Hnone : forall x,
             icl.find x [(icl.right_open 4097 4351, 1%positive)]
             <> Some 2%positive).
  { intros x. simpl. destruct (icl.contains _ x); discriminate. }
  split; [exact Hnone|].
  intros H. apply (Hnone 4170). apply H. simpl. lia.
Qed.

(** C4, as amended: at every reachable cache state, every address and
    every segment of the tracker is associated with an entry whose
    reinterpreted flag is set and whose range contains it; [RegisterReinterpretSurface] leaves
    the entry flagged, with its interval inserted where the tracker had no
    entry yet; [Unregister] of a flagged entry removes the addresses of its
    range from the tracker in the same call that unregisters the entry from
    the store. *)
Theorem tracked_surfaces_are_flagged (c : t) :
  reachable c ->
  tracker_sound c /\
  segments_sound c /\
  (forall s o,
     heap c !! s = Some o ->
     exists c' o',
       RegisterReinterpretSurface c s = Some c' /\
       heap c' !! s = Some o' /\
       CachedSurface.IsReinterpreted o' = true /\
       forall x,
         icl.contains (GetReinterpretInterval o) x = true ->
         CollideOnReinterpretedSurface c x = None ->
         CollideOnReinterpretedSurface c' x = Some s) /\
  (forall s o,
     heap c !! s = Some o ->
     CachedSurface.IsReinterpreted o = true ->
     exists c',
       Unregister c s = Some c' /\
       c' = RasterizerCache_Unregister (erase_reinterpreted c o) s /\
       forall x,
         icl.contains (GetReinterpretInterval o) x = true ->
         CollideOnReinterpretedSurface c' x = None).
Proof.
  intros Hreach. split; [apply reachable_tracker_sound, Hreach|].
  split; [apply reachable_segments_sound, Hreach|].
  split; intros s o Hs.
  - unfold RegisterReinterpretSurface. rewrite Hs. simpl.
    eexists. eexists. split; [reflexivity|]. simpl.
    rewrite lookup_insert_eq. split; [reflexivity|]. split; [reflexivity|].
    intros x Hin Hfree. unfold CollideOnReinterpretedSurface in *. simpl.
    rewrite find_insert, Hfree, Hin. reflexivity.
  - intros Hf. unfold Unregister. rewrite Hs. simpl.
    eexists. split; [reflexivity|]. split; [reflexivity|].
    unfold erase_reinterpreted. rewrite Hf. simpl.
    intros x Hin. unfold CollideOnReinterpretedSurface. simpl.
    rewrite find_erase, Hin. reflexivity.
Qed.

Lemma tracked_surfaces_are_flagged_witness :
  tracker_sound Sample.cache /\
  exists c' o',
    RegisterReinterpretSurface Sample.cache 1%positive = Some c' /\
    heap c' !! 1%positive = Some o' /\
    CachedSurface.IsReinterpreted o' = true.
Proof.
  destruct (tracked_surfaces_are_flagged Sample.cache) as (Hs & _ & Hr & _).
  - apply run_reachable with Sample.cache []; [apply Sample_cache_initial|].
    reflexivity.
  - split; [exact Hs|].
    destruct (Hr 1%positive (Sample.entry 4096 256) eq_refl)
      as (c' & o' & H1 & H2 & H3 & _).
    exists c', o'. auto.
Defined.

(** C4, as stated, fails: after surface [1] has been registered,
    reinterpreted, unregistered and registered again, it is a live entry
    of the store whose reinterpreted flag is set while the tracker holds no
    interval. *)
Lemma flag_without_interval :
  exists c,
    run Sample.cache Sample.reuse = Some c /\
    reachable c /\
    (1%positive ∈ store c) /\
    reinterpreted_surfaces c = [] /\
    ~ Spec.interval_iff_flag c.
Proof.
  eexists. split; [vm_compute; reflexivity|].
  split; [|split; [|split]].
  - apply run_reachable with Sample.cache Sample.reuse;
      [apply Sample_cache_initial | vm_compute; reflexivity].
  - apply (bool_decide_unpack _). vm_compute. exact I.
  - reflexivity.
  - intros H.
    specialize (H 1%positive
                  (CachedSurface.MarkReinterpreted (Sample.entry 4096 256))).
    destruct H as [_ H].
    + vm_compute. reflexivity.
    + destruct (H eq_refl) as (x & _ & Hx). vm_compute in Hx. discriminate.
Qed.

(** C5: registering an entry in the tracker and then calling [Unregister]
    on it leaves no address of the tracker associated with the entry and
    leaves the store without it; [Unregister] of a flagged entry first
    erases its interval from the tracker, the store still unchanged, and
    then unregisters it from the store. *)
Theorem Register_then_Unregister (c : t) (s : Surface) (o : CachedSurface.t) :
  reachable c ->
  heap c !! s = Some o ->
  (exists c1 c2,
     RegisterReinterpretSurface c s = Some c1 /\
     Unregister c1 s = Some c2 /\
     Spec.unreferenced c2 s /\
     (s ∉ store c2)) /\
  (CachedSurface.IsReinterpreted o = true ->
   Unregister c s
   = Some (RasterizerCache_Unregister (erase_reinterpreted c o) s) /\
   store (erase_reinterpreted c o) = store c /\
   forall x,
     icl.contains (GetReinterpretInterval o) x = true ->
     CollideOnReinterpretedSurface (erase_reinterpreted c o) x = None).
Proof.
  intros Hreach Hs.
  pose proof (reachable_tracker_sound c Hreach) as Hsound.
  pose proof (reachable_segments_sound c Hreach) as Hsegs.
  split.
  - unfold RegisterReinterpretSurface. rewrite Hs. simpl.
    eexists. eexists. split; [reflexivity|].
    unfold Unregister. simpl. rewrite lookup_insert_eq. simpl.
    split; [reflexivity|]. split; [|apply not_in_unregistered].
    split.
    + intros x. unfold CollideOnReinterpretedSurface. simpl.
      change (GetReinterpretInterval (CachedSurface.MarkReinterpreted o))
        with (GetReinterpretInterval o).
      rewrite find_erase, find_insert.
      destruct (icl.contains (GetReinterpretInterval o) x) eqn:Hin;
        [intros [=]|].
      destruct (icl.find x (reinterpreted_surfaces c)) as [w|] eqn:Hw;
        [|intros [=]].
      intros [= ->]. destruct (Hsound _ _ Hw) as (o' & Ho' & _ & Hc).
      congruence.
    + intros j Hj. simpl in Hj.
      change (GetReinterpretInterval (CachedSurface.MarkReinterpreted o))
        with (GetReinterpretInterval o) in Hj.
      apply in_erase in Hj as (j0 & Hj0 & Hcut).
      assert (Hin0 : icl.is_empty j0 = false /\
                     icl.subinterval j0 (GetReinterpretInterval o)).
      { apply in_insert in Hj0 as [Hold | (_ & Hne & Hsub)]; [|auto].
        destruct (Hsegs _ _ Hold) as (Hne & o' & Ho' & _ & Hsub).
        split; [exact Hne | congruence]. }
      rewrite (cut_within _ _ (proj1 Hin0) (proj2 Hin0)) in Hcut.
      destruct Hcut.
  - intros Hf. unfold Unregister. rewrite Hs. simpl.
    split; [reflexivity|]. unfold erase_reinterpreted. rewrite Hf. simpl.
    split; [reflexivity|].
    intros x Hin. unfold CollideOnReinterpretedSurface. simpl.
    rewrite find_erase, Hin. reflexivity.
Qed.

Lemma Register_then_Unregister_witness :
  exists c1 c2,
    RegisterReinterpretSurface Sample.cache 2%positive = Some c1 /\
    Unregister c1 2%positive = Some c2 /\
    Spec.unreferenced c2 2%positive /\
    (2%positive ∉ store c2).
Proof.
  apply (Register_then_Unregister Sample.cache 2%positive (Sample.entry 4160 64)).
  - apply run_reachable with Sample.cache []; [apply Sample_cache_initial|].
    reflexivity.
  - reflexivity.
Defined.

(** C10: once the reinterpreted flag of an entry is set, it stays set
    through every operation of the entry and of the cache, also through
    [Unregister] of the entry itself. *)
Theorem reinterpreted_flag_stable (c c' : t) (s : Surface) (o : CachedSurface.t) :
  heap c !! s = Some o ->
  CachedSurface.IsReinterpreted o = true ->
  rtc step c c' ->
  (exists o',
     heap c' !! s = Some o' /\ CachedSurface.IsReinterpreted o' = true) /\
  (exists c'' o'',
     Unregister c' s = Some c'' /\
     heap c'' !! s = Some o'' /\
     CachedSurface.IsReinterpreted o'' = true).
Proof.
  intros Hs Hf Hsteps.
  destruct (steps_heap _ _ _ _ Hsteps Hs) as (o' & Ho' & _ & Hf').
  split; [exists o'; auto|].
  unfold Unregister. rewrite Ho'. simpl.
  eexists. exists o'. split; [reflexivity|]. simpl.
  split; [|auto].
  unfold erase_reinterpreted. destruct (CachedSurface.IsReinterpreted o');
    exact Ho'.
Qed.

Lemma reinterpreted_flag_stable_witness :
  exists c c' o',
    MarkReinterpreted Sample.cache 1%positive = Some c /\
    run c [OpRegister 1; OpMarkForReload 1 true; OpUnregister 1]%positive
    = Some c' /\
    heap c' !! 1%positive = Some o' /\
    CachedSurface.IsReinterpreted o' = true.
Proof.
  pose (o := CachedSurface.MarkReinterpreted (Sample.entry 4096 256)).
  pose (c := with_heap (<[1%positive := o]> (heap Sample.cache)) Sample.cache).
  destruct (run c [OpRegister 1; OpMarkForReload 1 true; OpUnregister 1]%positive)
    as [c'|] eqn:Hrun; [|vm_compute in Hrun; discriminate].
  destruct (reinterpreted_flag_stable c c' 1%positive o)
    as [(o' & Ho' & Hf) _].
  - reflexivity.
  - reflexivity.
  - apply run_rtc with [OpRegister 1; OpMarkForReload 1 true; OpUnregister 1]%positive.
    exact Hrun.
  - exists c, c', o'. repeat split; assumption || reflexivity.
Defined.

End CacheFacts.

(** * Further properties of the descriptor *)

Section MipChain.

(** X1: up to mip level 31, the last level whose shift count C++ defines,
    every mip level is the level before it halved, rounding down and never
    below 1, so the dimensions never grow from one level to the next. *)
Theorem Mip_level_halves (p : SurfaceParams.t) (m : Z) :
  is_u32 (SurfaceParams.width p) ->
  is_u32 (SurfaceParams.height p) ->
  is_u32 (SurfaceParams.depth p) ->
  0 <= m < 31 ->
  SurfaceParams.MipWidth p (m + 1)
  = Z.max 1 (SurfaceParams.MipWidth p m / 2) /\
  SurfaceParams.MipHeight p (m + 1)
  = Z.max 1 (SurfaceParams.MipHeight p m / 2) /\
  (SurfaceParams.is_layered p = false ->
   SurfaceParams.MipDepth p (m + 1)
   = Z.max 1 (SurfaceParams.MipDepth p m / 2)) /\
  1 <= SurfaceParams.MipWidth p (m + 1) <= SurfaceParams.MipWidth p m /\
  1 <= SurfaceParams.MipHeight p (m + 1) <= SurfaceParams.MipHeight p m.
Proof.
  intros Hw Hh Hd Hm.
  assert (Hstep : forall x, 0 <= x ->
            Z.max 1 (Z.shiftr x (m + 1)) = Z.max 1 (Z.max 1 (Z.shiftr x m) / 2)
            /\ 1 <= Z.max 1 (Z.shiftr x (m + 1)) <= Z.max 1 (Z.shiftr x m)).
  { intros x Hx. rewrite <- Z.shiftr_shiftr by lia. rewrite shiftr_1.
    assert (0 <= Z.shiftr x m) by (apply Z.shiftr_nonneg; exact Hx).
    set (v := Z.shiftr x m) in *. Z.div_mod_to_equations. lia. }
  unfold SurfaceParams.MipWidth, SurfaceParams.MipHeight,
    SurfaceParams.MipDepth.
  destruct (Hstep _ (proj1 Hw)) as [Hw1 Hw2].
  destruct (Hstep _ (proj1 Hh)) as [Hh1 Hh2].
  destruct (Hstep _ (proj1 Hd)) as [Hd1 _].
  repeat split; try lia; try assumption.
  intros ->. exact Hd1.
Qed.

Lemma Mip_level_halves_witness :
  SurfaceParams.MipWidth Sample.volume 9 = Z.max 1 (1 / 2) /\
  SurfaceParams.MipHeight Sample.volume 9 = Z.max 1 (2 / 2) /\
  SurfaceParams.MipDepth Sample.volume 9 = Z.max 1 (1 / 2).
Proof.
  destruct (Mip_level_halves Sample.volume 8) as (Hw & Hh & Hd & _);
    try (unfold is_u32; simpl; lia).
  split; [exact Hw|]. split; [exact Hh | exact (Hd eq_refl)].
Defined.

(** X2: a valid descriptor has non-zero addresses and, at mip level 0, its
    declared width and height; a zero width or height makes the descriptor
    invalid, and level 0 then reports 1 for it. *)
Theorem IsValid_level_0 (p : SurfaceParams.t) :
  is_u32 (SurfaceParams.width p) ->
  is_u32 (SurfaceParams.height p) ->
  (SurfaceParams.IsValid p = true ->
   SurfaceParams.gpu_addr p <> 0 /\ SurfaceParams.host_ptr p <> 0 /\
   SurfaceParams.MipWidth p 0 = SurfaceParams.width p /\
   SurfaceParams.MipHeight p 0 = SurfaceParams.height p) /\
  (SurfaceParams.width p = 0 ->
   SurfaceParams.IsValid p = false /\ SurfaceParams.MipWidth p 0 = 1) /\
  (SurfaceParams.height p = 0 ->
   SurfaceParams.IsValid p = false /\ SurfaceParams.MipHeight p 0 = 1).
Proof.
  intros Hw Hh.
  unfold SurfaceParams.IsValid, SurfaceParams.MipWidth, SurfaceParams.MipHeight.
  rewrite !Z.shiftr_0_r. unfold is_u32 in *.
  split; [|split].
  - rewrite !andb_true_iff, !negb_true_iff, !Z.eqb_neq. lia.
  - intros ->. split; [|reflexivity]. simpl. apply andb_false_r.
  - intros ->. split; [|reflexivity]. simpl.
    rewrite andb_false_r. reflexivity.
Qed.

Lemma IsValid_level_0_witness :
  SurfaceParams.IsValid Sample.surface = true /\
  SurfaceParams.MipWidth Sample.surface 0 = 256 /\
  SurfaceParams.MipHeight Sample.surface 0 = 256.
Proof.
  destruct (IsValid_level_0 Sample.surface) as [H _];
    try (unfold is_u32; simpl; lia).
  split; [reflexivity|]. destruct (H eq_refl) as (_ & _ & Hw & Hh).
  split; assumption.
Defined.

End MipChain.

(** ** Block sizes of the mip levels, as tables *)

Lemma halve_while_step cond b :
  1 < b ->
  halve_while cond b = if cond b then halve_while cond (b / 2) else b.
Proof.
  intros Hb. rewrite halve_while_eq, shiftr_1.
  case_decide; [reflexivity | lia].
Qed.

Lemma halve_while_1 cond : halve_while cond 1 = 1.
Proof. rewrite halve_while_eq. case_decide; [lia | reflexivity]. Qed.

Lemma halve_while_16 cond :
  halve_while cond 16
  = if cond 16 then if cond 8 then if cond 4 then if cond 2 then 1
    else 2 else 4 else 8 else 16.
Proof.
  rewrite (halve_while_step cond 16) by lia. change (16 / 2) with 8.
  rewrite (halve_while_step cond 8) by lia. change (8 / 2) with 4.
  rewrite (halve_while_step cond 4) by lia. change (4 / 2) with 2.
  rewrite (halve_while_step cond 2) by lia. change (2 / 2) with 1.
  rewrite halve_while_1. reflexivity.
Qed.

Lemma halve_while_32 cond :
  halve_while cond 32
  = if cond 32 then if cond 16 then if cond 8 then if cond 4 then
      if cond 2 then 1 else 2 else 4 else 8 else 16 else 32.
Proof.
  rewrite (halve_while_step cond 32) by lia. change (32 / 2) with 16.
  rewrite halve_while_16. reflexivity.
Qed.

Section BlockTables.

Variable GetDefaultBlockHeight : PixelFormat -> Z.

Local Abbreviation MipBlockHeight :=
  (SurfaceParams.MipBlockHeight GetDefaultBlockHeight).
Local Abbreviation MipBlockDepth :=
  (SurfaceParams.MipBlockDepth GetDefaultBlockHeight).

Lemma MipBlockHeight_cases (p : SurfaceParams.t) (m : Z) :
  is_u32 (SurfaceParams.height p) ->
  0 < GetDefaultBlockHeight (SurfaceParams.pixel_format p) <= 2 ^ 31 ->
  0 < m ->
  let blocks :=
    Spec.blocks_needed (SurfaceParams.MipHeight p m)
      (GetDefaultBlockHeight (SurfaceParams.pixel_format p)) in
  MipBlockHeight p m
  = Some (if 64 <? blocks then 16 else if 32 <? blocks then 8
          else if 16 <? blocks then 4 else if 8 <? blocks then 2 else 1).
Proof.
  intros Hh Hb Hm blocks.
  rewrite (MipBlockHeight_value GetDefaultBlockHeight p m Hh Hb Hm).
  fold blocks. rewrite halve_while_16. f_equal.
  change (wrap32 (16 * 4)) with 64. change (wrap32 (8 * 4)) with 32.
  change (wrap32 (4 * 4)) with 16. change (wrap32 (2 * 4)) with 8.
  destruct (Z.leb_spec blocks 64), (Z.ltb_spec 64 blocks); try lia;
    try reflexivity.
  destruct (Z.leb_spec blocks 32), (Z.ltb_spec 32 blocks); try lia;
    try reflexivity.
  destruct (Z.leb_spec blocks 16), (Z.ltb_spec 16 blocks); try lia;
    try reflexivity.
  destruct (Z.leb_spec blocks 8), (Z.ltb_spec 8 blocks); try lia;
    reflexivity.
Qed.

(** X3: for a mip level above 0 the block height is 16, 8, 4, 2 or 1,
    chosen by the number of default-height blocks the level needs: 16 above
    64 blocks, 8 above 32, 4 above 16, 2 above 8, and 1 otherwise; the
    stored block height plays no part. *)
Theorem MipBlockHeight_table (p : SurfaceParams.t) (m : Z) :
  is_u32 (SurfaceParams.height p) ->
  0 < GetDefaultBlockHeight (SurfaceParams.pixel_format p) <= 2 ^ 31 ->
  0 < m ->
  let blocks :=
    Spec.blocks_needed (SurfaceParams.MipHeight p m)
      (GetDefaultBlockHeight (SurfaceParams.pixel_format p)) in
  exists bh,
    MipBlockHeight p m = Some bh /\
    bh = (if 64 <? blocks then 16 else if 32 <? blocks then 8
          else if 16 <? blocks then 4 else if 8 <? blocks then 2 else 1) /\
    (bh = 1 \/ 4 * bh < blocks) /\
    (bh = 16 \/ blocks <= 8 * bh) /\
    1 <= bh <= 16.
Proof.
  intros Hh Hb Hm blocks.
  pose proof (MipBlockHeight_cases p m Hh Hb Hm) as Hc. fold blocks in Hc.
  eexists. split; [exact Hc|]. split; [reflexivity|].
  destruct (Z.ltb_spec 64 blocks); [lia|].
  destruct (Z.ltb_spec 32 blocks); [lia|].
  destruct (Z.ltb_spec 16 blocks); [lia|].
  destruct (Z.ltb_spec 8 blocks); lia.
Qed.

(** X4: for a mip level above 0 of a non-layered surface the block depth is
    the smallest power of two that is at least the mip depth, at most 32;
    when the mip depth is above 16 the result is 32, or 16 if the block
    height of the level is at least 4. *)
Theorem MipBlockDepth_table (p : SurfaceParams.t) (m : Z) :
  is_u32 (SurfaceParams.depth p) ->
  is_u32 (SurfaceParams.height p) ->
  0 < GetDefaultBlockHeight (SurfaceParams.pixel_format p) <= 2 ^ 31 ->
  0 < m ->
  SurfaceParams.is_layered p = false ->
  let depth := SurfaceParams.MipDepth p m in
  exists bd bh,
    MipBlockDepth p m = Some bd /\
    MipBlockHeight p m = Some bh /\
    (depth <= 16 ->
     bd = (if 8 <? depth then 16 else if 4 <? depth then 8
           else if 2 <? depth then 4 else if 1 <? depth then 2 else 1) /\
     depth <= bd < 2 * depth) /\
    (16 < depth -> bd = if 4 <=? bh then 16 else 32).
Proof.
  intros Hd Hh Hb Hm Hl depth.
  pose proof (MipBlockHeight_cases p m Hh Hb Hm) as Hbh. cbv zeta in Hbh.
  set (bh := if 64 <? _ then _ else _) in Hbh.
  unfold SurfaceParams.MipBlockDepth.
  destruct (Z.eqb_spec m 0) as [|_]; [lia|]. rewrite Hl. cbv zeta.
  assert (Hmd : 1 <= depth < 2 ^ 31).
  { unfold depth, SurfaceParams.MipDepth. rewrite Hl.
    apply mip_dim_bounds; assumption. }
  fold depth. rewrite wrap32_small
    by (unfold is_u32; change (2 ^ 32) with (2 * 2 ^ 31); lia).
  rewrite halve_while_32, Hbh. cbn [mbind option_bind].
  destruct (Z.leb_spec (depth * 2) 32).
  - destruct (Z.leb_spec (depth * 2) 16).
    + destruct (Z.leb_spec (depth * 2) 8).
      * destruct (Z.leb_spec (depth * 2) 4).
        -- destruct (Z.leb_spec (depth * 2) 2).
           ++ exists 1, bh. simpl.
              split; [reflexivity|]. split; [reflexivity|]. split; [|lia].
              intros _. destruct (Z.ltb_spec 8 depth); [lia|].
              destruct (Z.ltb_spec 4 depth); [lia|].
              destruct (Z.ltb_spec 2 depth); [lia|].
              destruct (Z.ltb_spec 1 depth); lia.
           ++ exists 2, bh. simpl.
              split; [reflexivity|]. split; [reflexivity|]. split; [|lia].
              intros _. destruct (Z.ltb_spec 8 depth); [lia|].
              destruct (Z.ltb_spec 4 depth); [lia|].
              destruct (Z.ltb_spec 2 depth); [lia|].
              destruct (Z.ltb_spec 1 depth); lia.
        -- exists 4, bh. simpl.
           split; [reflexivity|]. split; [reflexivity|]. split; [|lia].
           intros _. destruct (Z.ltb_spec 8 depth); [lia|].
           destruct (Z.ltb_spec 4 depth); [lia|].
           destruct (Z.ltb_spec 2 depth); lia.
      * exists 8, bh. simpl.
        split; [reflexivity|]. split; [reflexivity|]. split; [|lia].
        intros _. destruct (Z.ltb_spec 8 depth); [lia|].
        destruct (Z.ltb_spec 4 depth); lia.
    + exists 16, bh. simpl.
      split; [reflexivity|]. split; [reflexivity|]. split; [|lia].
      intros _. destruct (Z.ltb_spec 8 depth); lia.
  - exists (if 4 <=? bh then 16 else 32), bh. simpl.
    split; [destruct (4 <=? bh); reflexivity|].
    split; [reflexivity|]. split; [lia | reflexivity].
Qed.

End BlockTables.

Lemma MipBlockHeight_table_witness :
  exists bh,
    SurfaceParams.MipBlockHeight Sample.GetDefaultBlockHeight Sample.volume 4
    = Some bh /\
    bh = 4.
Proof.
  destruct (MipBlockHeight_table Sample.GetDefaultBlockHeight Sample.volume 4)
    as (bh & H1 & H2 & _);
    try (unfold is_u32, Sample.GetDefaultBlockHeight; simpl; lia).
  exists bh. split; [exact H1 | exact H2].
Defined.

Lemma MipBlockDepth_table_witness :
  exists bd,
    SurfaceParams.MipBlockDepth Sample.GetDefaultBlockHeight Sample.volume 3
    = Some bd /\
    8 <= bd < 2 * 8.
Proof.
  destruct (MipBlockDepth_table Sample.GetDefaultBlockHeight Sample.volume 3)
    as (bd & bh & H1 & _ & H2 & _);
    try (unfold is_u32, Sample.GetDefaultBlockHeight; simpl; lia);
    try reflexivity.
  exists bd. split; [exact H1|].
  assert (Hd : SurfaceParams.MipDepth Sample.volume 3 <= 16)
    by (vm_compute; discriminate).
  exact (proj2 (H2 Hd)).
Defined.

(** ** Compatibility and reserve keys together *)

Lemma IsCompatibleSurface_key (p q : SurfaceParams.t) :
  SurfaceParams.IsCompatibleSurface p q = true
  <-> SurfaceParams.compatibility_key p = SurfaceParams.compatibility_key q.
Proof.
  unfold SurfaceParams.IsCompatibleSurface, SurfaceParams.compatibility_key.
  case_bool_decide as H1.
  - rewrite H1. assert (Ht : SurfaceParams.is_tiled p = SurfaceParams.is_tiled q)
      by congruence.
    rewrite <- Ht. destruct (SurfaceParams.is_tiled p); simpl.
    + rewrite bool_decide_eq_true. split; congruence.
    + split; reflexivity.
  - split; [discriminate | congruence].
Qed.

Lemma compatibility_key_Create (p : SurfaceParams.t) :
  SurfaceParams.compatibility_key
    (SurfaceReserveKey.state (SurfaceReserveKey.Create p))
  = SurfaceParams.compatibility_key p.
Proof. destruct p. reflexivity. Qed.

(** X5: [IsCompatibleSurface] is an equivalence relation on descriptors:
    every descriptor is compatible with itself, the answer does not depend
    on which of the two descriptors the function is called on, and
    compatibility carries over a common third descriptor. *)
Theorem IsCompatibleSurface_equivalence (p q r : SurfaceParams.t) :
  SurfaceParams.IsCompatibleSurface p p = true /\
  SurfaceParams.IsCompatibleSurface p q = SurfaceParams.IsCompatibleSurface q p /\
  (SurfaceParams.IsCompatibleSurface p q = true ->
   SurfaceParams.IsCompatibleSurface q r = true ->
   SurfaceParams.IsCompatibleSurface p r = true).
Proof.
  split; [apply IsCompatibleSurface_key; reflexivity|]. split.
  - apply Bool.eq_iff_eq_true. rewrite !IsCompatibleSurface_key.
    split; intros H; symmetry; exact H.
  - rewrite !IsCompatibleSurface_key. intros H1 H2. congruence.
Qed.

(** X6: two descriptors with the same reserve key are compatible, so a
    surface stored in the reserve under the key of a descriptor can stand
    in for that descriptor. *)
Theorem same_key_compatible (p q : SurfaceParams.t) :
  SurfaceReserveKey.Create p = SurfaceReserveKey.Create q ->
  SurfaceParams.IsCompatibleSurface p q = true.
Proof.
  intros Hk. apply IsCompatibleSurface_key.
  rewrite <- (compatibility_key_Create p), <- (compatibility_key_Create q), Hk.
  reflexivity.
Qed.

Lemma same_key_compatible_witness :
  SurfaceParams.IsCompatibleSurface Sample.surface
    (SurfaceReserveKey.clear_gpu_addr Sample.surface) = true.
Proof.
  apply (same_key_compatible Sample.surface
           (SurfaceReserveKey.clear_gpu_addr Sample.surface)).
  reflexivity.
Defined.

(** X7: the state of a reserve key is a descriptor that creates the same
    key again, has the first classification, GPU address 0 and an all-zero
    [rt], keeps the host pointer, and is compatible with the descriptor the
    key was created from. *)
Theorem Create_normal_form (p : SurfaceParams.t) :
  let k := SurfaceReserveKey.Create p in
  SurfaceReserveKey.Create (SurfaceReserveKey.state k) = k /\
  SurfaceParams.identity (SurfaceReserveKey.state k) = Uploaded /\
  SurfaceParams.gpu_addr (SurfaceReserveKey.state k) = 0 /\
  SurfaceParams.rt (SurfaceReserveKey.state k) = SurfaceParams.mk_rt 0 0 0 0 0 /\
  SurfaceParams.host_ptr (SurfaceReserveKey.state k) = SurfaceParams.host_ptr p /\
  SurfaceParams.IsCompatibleSurface p (SurfaceReserveKey.state k) = true.
Proof.
  cbv zeta. repeat split; try (destruct p; reflexivity).
  apply IsCompatibleSurface_key. symmetry. apply compatibility_key_Create.
Qed.

(** ** Byte sizes and mip level offsets *)

(** A square is divisible by [2 ^ (2 n)] only if its root is divisible by
    [2 ^ n]. *)
Lemma square_divisible (n : nat) (c : Z) :
  (2 ^ (2 * Z.of_nat n) | c * c) -> (2 ^ Z.of_nat n | c).
Proof.
  revert c. induction n as [|n IH]; intros c Hc.
  - simpl. apply Z.divide_1_l.
  - replace (2 * Z.of_nat (S n)) with (2 + 2 * Z.of_nat n) in Hc by lia.
    rewrite Z.pow_add_r in Hc by lia. change (2 ^ 2) with 4 in Hc.
    assert (H2 : (2 | c)).
    { destruct (Z.Even_or_Odd c) as [[t ->] | [t ->]]; [exists t; lia|].
      destruct Hc as [u Hu]. exfalso.
      set (v := 2 ^ (2 * Z.of_nat n)) in *. nia. }
    destruct H2 as [c' ->].
    assert (Hc' : (2 ^ (2 * Z.of_nat n) | c' * c')).
    { destruct Hc as [t Ht]. exists t. lia. }
    apply IH in Hc' as [u ->].
    replace (Z.of_nat (S n)) with (1 + Z.of_nat n) by lia.
    rewrite Z.pow_add_r by lia. exists u. lia.
Qed.

Lemma wrap32_square_zero (c : Z) : wrap32 (c * c) = 0 <-> c mod 2 ^ 16 = 0.
Proof.
  unfold wrap32. rewrite !Z.mod_divide by lia. split.
  - intros H. apply (square_divisible 16). exact H.
  - intros [u ->]. exists (u * u). change (2 ^ 32) with (2 ^ 16 * 2 ^ 16). lia.
Qed.

Lemma wrapped_sum (f : Z -> Z) (l : list Z) (a b : Z) :
  a = wrap64 b ->
  fold_left (fun offset i => wrap64 (offset + f i)) l a
  = wrap64 (fold_left (fun total i => total + f i) l b).
Proof.
  revert a b. induction l as [|i l IH]; intros a b Hab; simpl; [exact Hab|].
  apply IH. rewrite Hab. unfold wrap64. apply Zplus_mod_idemp_l.
Qed.

Lemma wrapped_sum_step (f : Z -> Z) (n : Z) :
  0 <= n ->
  fold_left (fun offset i => wrap64 (offset + f i)) (seqZ 0 (n + 1)) 0
  = wrap64 (fold_left (fun offset i => wrap64 (offset + f i)) (seqZ 0 n) 0
            + f n).
Proof.
  intros Hn. rewrite seqZ_app by lia. rewrite fold_left_app. reflexivity.
Qed.

Section SizesAndOffsets.

Variable GetCompressionFactor : PixelFormat -> Z.
Variable GetBytesPerPixel : PixelFormat -> Z.
Variable CalculateSize : bool -> Z -> Z -> Z -> Z -> Z -> Z -> Z.
Variable InnerMipmapMemorySize :
  SurfaceParams.t -> Z -> bool -> bool -> bool -> Z.
Variable InnerMemorySize : SurfaceParams.t -> bool -> bool -> bool -> Z.

Local Abbreviation SizeInBytesRaw :=
  (SurfaceParams.SizeInBytesRaw GetCompressionFactor GetBytesPerPixel
     CalculateSize).
Local Abbreviation SizeInBytesGL :=
  (SurfaceParams.SizeInBytesGL GetCompressionFactor GetBytesPerPixel
     CalculateSize).
Local Abbreviation uncompressed_size :=
  (SurfaceParams.uncompressed_size GetBytesPerPixel CalculateSize).
Local Abbreviation GetMipmapLevelOffset :=
  (SurfaceParams.GetMipmapLevelOffset InnerMipmapMemorySize).
Local Abbreviation GetMipmapLevelOffsetGL :=
  (SurfaceParams.GetMipmapLevelOffsetGL InnerMipmapMemorySize).
Local Abbreviation GetMipmapSingleSize :=
  (SurfaceParams.GetMipmapSingleSize InnerMipmapMemorySize).
Local Abbreviation GetMipmapSizeGL :=
  (SurfaceParams.GetMipmapSizeGL InnerMipmapMemorySize).
Local Abbreviation LayerSizeGL :=
  (SurfaceParams.LayerSizeGL InnerMipmapMemorySize).
Local Abbreviation MemorySize := (SurfaceParams.MemorySize InnerMemorySize).
Local Abbreviation LayerMemorySize :=
  (SurfaceParams.LayerMemorySize InnerMemorySize).

(** X8: with a compression factor between 1 and 65535 the raw size is
    defined, lies between 0 and the uncompressed size, and is the
    uncompressed size itself for factor 1; for a linear descriptor
    [SizeInBytesGL] and [SizeInBytesRaw] agree. *)
Theorem SizeInBytesRaw_bounds (p : SurfaceParams.t) (ignore_tiled : bool) :
  0 < GetCompressionFactor (SurfaceParams.pixel_format p) < 2 ^ 16 ->
  0 <= uncompressed_size p ignore_tiled ->
  (exists r,
     SizeInBytesRaw p ignore_tiled = Some r /\
     0 <= r <= uncompressed_size p ignore_tiled /\
     (GetCompressionFactor (SurfaceParams.pixel_format p) = 1 ->
      r = uncompressed_size p ignore_tiled)) /\
  (SurfaceParams.is_tiled p = false ->
   SizeInBytesGL p = SizeInBytesRaw p false).
Proof.
  intros Hcf Hsize. split.
  - unfold SurfaceParams.SizeInBytesRaw, udiv. cbv zeta.
    set (cf := GetCompressionFactor _) in *.
    set (size := SurfaceParams.uncompressed_size _ _ _ _) in *.
    assert (0 < cf * cf < 2 ^ 32)
      by (change (2 ^ 32) with (2 ^ 16 * 2 ^ 16); nia).
    rewrite wrap32_small by (unfold is_u32; lia).
    destruct (Z.eqb_spec (cf * cf) 0); [lia|].
    eexists. split; [reflexivity|]. split.
    + split; [apply Z.div_pos; lia|].
      apply Z.div_le_upper_bound; [lia | nia].
    + intros ->. apply Z.div_1_r.
  - intros Ht. unfold SurfaceParams.SizeInBytesGL,
      SurfaceParams.SizeInBytesRaw, SurfaceParams.uncompressed_size.
    rewrite Ht. reflexivity.
Qed.

(** X9: the raw size has no defined value exactly when the compression
    factor is a multiple of 65536 (0 included): the 32-bit product
    [compression_factor * compression_factor] is then 0 and the division
    divides by zero. *)
Theorem SizeInBytesRaw_undefined (p : SurfaceParams.t) (ignore_tiled : bool) :
  SizeInBytesRaw p ignore_tiled = None
  <-> GetCompressionFactor (SurfaceParams.pixel_format p) mod 2 ^ 16 = 0.
Proof.
  unfold SurfaceParams.SizeInBytesRaw, udiv. cbv zeta.
  rewrite <- wrap32_square_zero.
  destruct (Z.eqb_spec (wrap32 (GetCompressionFactor
                                  (SurfaceParams.pixel_format p)
                                * GetCompressionFactor
                                    (SurfaceParams.pixel_format p))) 0);
    split; congruence.
Qed.

(** X10: a layered surface occupies its depth times the size of one layer,
    in memory and per mip level in OpenGL, the products taken modulo
    [2 ^ 64]; for a surface that is not layered the size of a mip level in
    OpenGL is the size of its single layer. *)
Theorem layered_sizes (p : SurfaceParams.t) (m : Z) :
  (SurfaceParams.is_layered p = true ->
   MemorySize p = wrap64 (LayerMemorySize p * SurfaceParams.depth p) /\
   GetMipmapSizeGL p m false
   = wrap64 (LayerSizeGL p m * SurfaceParams.depth p)) /\
  (SurfaceParams.is_layered p = false ->
   MemorySize p = InnerMemorySize p false false false /\
   GetMipmapSizeGL p m false = LayerSizeGL p m).
Proof.
  unfold SurfaceParams.MemorySize, SurfaceParams.LayerMemorySize,
    SurfaceParams.GetMipmapSizeGL, SurfaceParams.LayerSizeGL.
  split; intros ->; split; reflexivity.
Qed.

(** X11: the mip levels lie back to back: the offset of level 0 is 0, the
    offset of level [m + 1] is the offset of level [m] plus the size of
    level [m], and the offset of level [m] is the sum of the sizes of the
    levels below it; all sums are modulo [2 ^ 64]. The OpenGL offsets obey
    the same rule with the OpenGL sizes. *)
Theorem GetMipmapLevelOffset_chain (p : SurfaceParams.t) (m : Z) :
  0 <= m ->
  GetMipmapLevelOffset p 0 = 0 /\
  GetMipmapLevelOffset p (m + 1)
  = wrap64 (GetMipmapLevelOffset p m + GetMipmapSingleSize p m) /\
  GetMipmapLevelOffset p m
  = wrap64 (Spec.level_sum (GetMipmapSingleSize p) m) /\
  GetMipmapLevelOffsetGL p 0 = 0 /\
  GetMipmapLevelOffsetGL p (m + 1)
  = wrap64 (GetMipmapLevelOffsetGL p m
            + InnerMipmapMemorySize p m true (SurfaceParams.is_layered p) false).
Proof.
  intros Hm. unfold SurfaceParams.GetMipmapLevelOffset,
    SurfaceParams.GetMipmapLevelOffsetGL, SurfaceParams.GetMipmapSingleSize,
    Spec.level_sum.
  split; [reflexivity|]. split; [|split; [|split; [reflexivity|]]].
  - apply (wrapped_sum_step
             (fun i => InnerMipmapMemorySize p i false
                         (SurfaceParams.is_layered p) false)). exact Hm.
  - apply wrapped_sum. reflexivity.
  - apply (wrapped_sum_step
             (fun i => InnerMipmapMemorySize p i true
                         (SurfaceParams.is_layered p) false)). exact Hm.
Qed.

End SizesAndOffsets.

Lemma SizeInBytesRaw_bounds_witness :
  exists r,
    SurfaceParams.SizeInBytesRaw Sample.GetCompressionFactor
      Sample.GetBytesPerPixel Sample.CalculateSize Sample.surface true
    = Some r /\
    0 <= r <= 524288.
Proof.
  destruct (SizeInBytesRaw_bounds Sample.GetCompressionFactor
              Sample.GetBytesPerPixel Sample.CalculateSize Sample.surface true)
    as [(r & Hr & Hb & _) _].
  - unfold Sample.GetCompressionFactor. lia.
  - vm_compute. discriminate.
  - exists r. split; [exact Hr | exact Hb].
Defined.

Lemma GetMipmapLevelOffset_chain_witness :
  SurfaceParams.GetMipmapLevelOffset Sample.InnerMipmapMemorySize
    Sample.surface 0 = 0 /\
  SurfaceParams.GetMipmapLevelOffset Sample.InnerMipmapMemorySize
    Sample.surface (1 + 1) = 262144 + 65536.
Proof.
  destruct (GetMipmapLevelOffset_chain Sample.InnerMipmapMemorySize
              Sample.surface 1 ltac:(lia)) as (H0 & H1 & _).
  split; [exact H0|]. rewrite H1. reflexivity.
Defined.

(** * Further properties of the reinterpretation tracker *)

Section InsertCovered.

Context {V : Type}.

(** Inserting over addresses that all have a value already stores
    nothing. *)
Lemma insert_covered i (v : V) (m : icl.interval_map V) :
  (forall x, icl.contains i x = true -> icl.find x m <> None) ->
  icl.insert (i, v) m = m.
Proof.
  intros Hcov. unfold icl.insert. cbn [fst snd].
  assert (Hnil : icl.uncovered m (icl.keep [i]) = []).
  { destruct (icl.uncovered m (icl.keep [i])) as [|k l] eqn:Hu; [reflexivity|].
    exfalso.
    assert (Hk : In k (icl.uncovered m (icl.keep [i])))
      by (rewrite Hu; left; reflexivity).
    assert (Hne : icl.is_empty k = false).
    { eapply uncovered_nonempty; [|exact Hk].
      intros pc Hpc%in_keep. apply Hpc. }
    assert (Hself : icl.contains k k.1 = true).
    { unfold icl.contains, icl.is_empty in *. apply Z.leb_gt in Hne.
      apply andb_true_intro. split; [apply Z.leb_le | apply Z.ltb_lt]; lia. }
    assert (Hc : icl.covers (icl.uncovered m (icl.keep [i])) k.1 = true).
    { unfold icl.covers. apply existsb_exists. exists k. split; assumption. }
    rewrite covers_uncovered, covers_keep in Hc.
    apply andb_true_iff in Hc as [Hi Hfree]. simpl in Hi.
    rewrite orb_false_r in Hi. apply bool_decide_eq_true in Hfree.
    exact (Hcov _ Hi Hfree). }
  rewrite Hnil. apply app_nil_r.
Qed.

(** Inserting an empty interval stores nothing. *)
Lemma insert_empty i (v : V) (m : icl.interval_map V) :
  icl.is_empty i = true -> icl.insert (i, v) m = m.
Proof.
  intros Hi. apply insert_covered. intros x Hx.
  rewrite (contains_empty _ _ Hi) in Hx. discriminate.
Qed.

End InsertCovered.

Module TrackerFacts.

Import RasterizerCacheOpenGL.

(** X12: [Unregister] of a surface of the heap succeeds and changes no
    surface object. When the surface is flagged it removes every address of
    the range of the surface from the tracker, also the addresses that
    belong to other surfaces, and leaves the addresses outside the range as
    they are; when the surface is not flagged the tracker is unchanged. *)
Theorem Unregister_effect (c : t) (s : Surface) (o : CachedSurface.t) :
  heap c !! s = Some o ->
  exists c',
    Unregister c s = Some c' /\
    heap c' = heap c /\
    (forall x,
       CollideOnReinterpretedSurface c' x
       = if CachedSurface.IsReinterpreted o
            && icl.contains (GetReinterpretInterval o) x
         then None
         else CollideOnReinterpretedSurface c x) /\
    (CachedSurface.IsReinterpreted o = false ->
     reinterpreted_surfaces c' = reinterpreted_surfaces c).
Proof.
  intros Hs. unfold Unregister. rewrite Hs. simpl.
  eexists. split; [reflexivity|].
  unfold erase_reinterpreted, CollideOnReinterpretedSurface.
  destruct (CachedSurface.IsReinterpreted o); simpl.
  - split; [reflexivity|]. split; [|discriminate].
    intros x. apply find_erase.
  - repeat split; reflexivity.
Qed.

Lemma Unregister_effect_witness :
  exists c',
    Unregister Sample.cache 1%positive = Some c' /\
    heap c' = heap Sample.cache /\
    reinterpreted_surfaces c' = reinterpreted_surfaces Sample.cache.
Proof.
  destruct (Unregister_effect Sample.cache 1%positive (Sample.entry 4096 256)
              eq_refl) as (c' & H1 & H2 & _ & H3).
  exists c'. split; [exact H1|]. split; [exact H2 | exact (H3 eq_refl)].
Defined.

(** X13: registering the same surface for reinterpretation a second time
    changes nothing: the state after the first registration is the state
    after the second. *)
Theorem RegisterReinterpretSurface_idempotent (c c1 : t) (s : Surface) :
  RegisterReinterpretSurface c s = Some c1 ->
  RegisterReinterpretSurface c1 s = Some c1.
Proof.
  unfold RegisterReinterpretSurface.
  destruct (heap c !! s) as [o|] eqn:Hs; simpl; [|discriminate].
  intros [= <-]. simpl. rewrite lookup_insert_eq. simpl.
  change (GetReinterpretInterval (CachedSurface.MarkReinterpreted o))
    with (GetReinterpretInterval o).
  change (CachedSurface.MarkReinterpreted (CachedSurface.MarkReinterpreted o))
    with (CachedSurface.MarkReinterpreted o).
  rewrite insert_insert_eq. unfold with_heap, with_reinterpreted_surfaces.
  simpl. rewrite insert_covered; [reflexivity|].
  intros x Hx. rewrite find_insert, Hx.
  destruct (icl.find x (reinterpreted_surfaces c)); discriminate.
Qed.

Lemma RegisterReinterpretSurface_idempotent_witness :
  exists c1,
    RegisterReinterpretSurface Sample.cache 1%positive = Some c1 /\
    RegisterReinterpretSurface c1 1%positive = Some c1.
Proof.
  eexists. split; [vm_compute; reflexivity|].
  apply (RegisterReinterpretSurface_idempotent Sample.cache).
  vm_compute. reflexivity.
Defined.

(** X14: only [Unregister] takes a collision away: after any other
    operation an address that collided with a surface still collides with
    the same surface. *)
Theorem collisions_persist (c c' : t) (o : op) (x : Z) (w : Surface) :
  run_op c o = Some c' ->
  (forall s, o <> OpUnregister s) ->
  CollideOnReinterpretedSurface c x = Some w ->
  CollideOnReinterpretedSurface c' x = Some w.
Proof.
  intros Hop Hno Hx. unfold CollideOnReinterpretedSurface in *.
  destruct o as [s0 | s0 | s0 | s0 | s0 b]; simpl in Hop;
    unfold Register, RegisterReinterpretSurface, MarkReinterpreted,
      MarkForReload in Hop;
    try (exfalso; exact (Hno s0 eq_refl));
    try (destruct (heap c !! s0) as [o0|] eqn:H0; simpl in Hop; [|discriminate]);
    injection Hop as <-; simpl; try exact Hx.
  rewrite find_insert, Hx. reflexivity.
Qed.

Lemma collisions_persist_witness :
  exists c c',
    RegisterReinterpretSurface Sample.cache 1%positive = Some c /\
    run_op c (OpRegisterReinterpretSurface 2%positive) = Some c' /\
    CollideOnReinterpretedSurface c' 4170 = Some 1%positive.
Proof.
  destruct (RegisterReinterpretSurface Sample.cache 1%positive)
    as [c|] eqn:Hc; [|vm_compute in Hc; discriminate].
  destruct (run_op c (OpRegisterReinterpretSurface 2%positive))
    as [c'|] eqn:Hc';
    [|injection Hc as <-; vm_compute in Hc'; discriminate].
  exists c, c'. split; [reflexivity|]. split; [exact Hc'|].
  apply (collisions_persist c c' (OpRegisterReinterpretSurface 2%positive)
           4170 1%positive Hc').
  - discriminate.
  - injection Hc as <-. reflexivity.
Defined.

(** X15: when two surfaces are registered for reinterpretation one after
    the other, an address that was free before goes to the first surface if
    its range contains the address, to the second surface if only the
    range of the second does, and stays free otherwise: on the overlap of
    the two ranges the surface registered first is the one returned. *)
Theorem first_registration_wins
    (c : t) (s1 s2 : Surface) (o1 o2 : CachedSurface.t) :
  heap c !! s1 = Some o1 ->
  heap c !! s2 = Some o2 ->
  exists c1 c2,
    RegisterReinterpretSurface c s1 = Some c1 /\
    RegisterReinterpretSurface c1 s2 = Some c2 /\
    forall x,
      CollideOnReinterpretedSurface c x = None ->
      CollideOnReinterpretedSurface c2 x
      = if icl.contains (GetReinterpretInterval o1) x then Some s1
        else if icl.contains (GetReinterpretInterval o2) x then Some s2
        else None.
Proof.
  intros H1 H2.
  assert (Ho2 : exists o2',
             <[s1 := CachedSurface.MarkReinterpreted o1]> (heap c) !! s2
             = Some o2' /\
             GetReinterpretInterval o2' = GetReinterpretInterval o2).
  { destruct (decide (s1 = s2)) as [-> | Hne].
    - rewrite lookup_insert_eq. eexists. split; [reflexivity|].
      replace o2 with o1 by congruence. reflexivity.
    - rewrite lookup_insert_ne by exact Hne. eauto. }
  destruct Ho2 as (o2' & Ho2' & Hi).
  unfold RegisterReinterpretSurface at 1. rewrite H1. simpl.
  eexists. eexists. split; [reflexivity|].
  unfold RegisterReinterpretSurface. simpl. rewrite Ho2'. simpl.
  split; [reflexivity|].
  intros x Hx. unfold CollideOnReinterpretedSurface in *. simpl.
  rewrite !find_insert, Hx, Hi.
  destruct (icl.contains (GetReinterpretInterval o1) x); reflexivity.
Qed.

Lemma first_registration_wins_witness :
  exists c1 c2,
    RegisterReinterpretSurface Sample.cache 1%positive = Some c1 /\
    RegisterReinterpretSurface c1 2%positive = Some c2 /\
    CollideOnReinterpretedSurface c2 4170 = Some 1%positive.
Proof.
  destruct (first_registration_wins Sample.cache 1%positive 2%positive
              (Sample.entry 4096 256) (Sample.entry 4160 64) eq_refl eq_refl)
    as (c1 & c2 & H1 & H2 & H3).
  exists c1, c2. split; [exact H1|]. split; [exact H2|].
  rewrite (H3 4170 eq_refl). reflexivity.
Defined.

(** X16: in every reachable state a collision is reported only strictly
    inside the memory of the surface returned: never at its first byte,
    and never at or after its last byte when the memory of the surface lies
    within the address space. *)
Theorem collisions_strictly_inside (c : t) (x : Z) (s : Surface) :
  reachable c ->
  CollideOnReinterpretedSurface c x = Some s ->
  exists o,
    heap c !! s = Some o /\
    (is_u64 (CachedSurface.cache_addr o) -> x <> CachedSurface.cache_addr o) /\
    (0 <= CachedSurface.cache_addr o < 2 ^ 64 - 1 ->
     1 <= CachedSurface.memory_size o ->
     CachedSurface.cache_addr o + CachedSurface.memory_size o <= 2 ^ 64 ->
     CachedSurface.cache_addr o < x
     < CachedSurface.cache_addr o + CachedSurface.memory_size o - 1).
Proof.
  intros Hreach Hx.
  destruct (CacheFacts.reachable_tracker_sound c Hreach _ _ Hx)
    as (o & Ho & _ & Hin).
  exists o. split; [exact Ho|]. split.
  - intros Ha ->.
    rewrite (CacheFacts.GetReinterpretInterval_excludes_start o Ha) in Hin.
    discriminate.
  - intros Ha Hsz Hsum.
    rewrite (CacheFacts.GetReinterpretInterval_small o Ha Hsz Hsum) in Hin.
    apply CacheFacts.contains_right_open in Hin. lia.
Qed.

Lemma collisions_strictly_inside_witness :
  exists c o,
    RegisterReinterpretSurface Sample.cache 2%positive = Some c /\
    heap c !! 2%positive = Some o /\
    4200 <> CachedSurface.cache_addr o.
Proof.
  pose (o := CachedSurface.MarkReinterpreted (Sample.entry 4160 64)).
  pose (c := with_heap (<[2%positive := o]> (heap Sample.cache))
               (with_reinterpreted_surfaces
                  (icl.insert (GetReinterpretInterval (Sample.entry 4160 64),
                               2%positive) []) Sample.cache)).
  assert (Hc : RegisterReinterpretSurface Sample.cache 2%positive = Some c)
    by reflexivity.
  destruct (collisions_strictly_inside c 4200 2%positive) as (o' & Ho' & Hne & _).
  - apply CacheFacts.run_reachable
      with Sample.cache [OpRegisterReinterpretSurface 2%positive];
      [apply CacheFacts.Sample_cache_initial|].
    simpl. rewrite Hc. reflexivity.
  - reflexivity.
  - exists c, o'. split; [exact Hc|]. split; [exact Ho'|].
    apply Hne. vm_compute in Ho'. injection Ho' as <-.
    unfold is_u64. simpl. lia.
Defined.

(** X19: a surface of at most two bytes has an empty reinterpret interval:
    [RegisterReinterpretSurface] flags it and stores nothing in the
    tracker, so no address ever collides with it. *)
Theorem tiny_surface_not_tracked (c : t) (s : Surface) (o : CachedSurface.t) :
  heap c !! s = Some o ->
  1 <= CachedSurface.cache_addr o < 2 ^ 64 - 1 ->
  0 <= CachedSurface.memory_size o <= 2 ->
  exists c' o',
    RegisterReinterpretSurface c s = Some c' /\
    reinterpreted_surfaces c' = reinterpreted_surfaces c /\
    heap c' !! s = Some o' /\
    CachedSurface.IsReinterpreted o' = true /\
    forall x, icl.contains (GetReinterpretInterval o) x = false.
Proof.
  intros Hs Ha Hsz.
  assert (He : icl.is_empty (GetReinterpretInterval o) = true).
  { unfold GetReinterpretInterval, icl.is_empty, icl.right_open,
      CachedSurface.GetCacheAddr, CachedSurface.GetMemorySize. simpl.
    set (a := CachedSurface.cache_addr o) in *.
    set (sz := CachedSurface.memory_size o) in *.
    rewrite (wrap64_small (a + 1)) by (unfold is_u64; lia).
    unfold wrap64. rewrite Zminus_mod_idemp_l.
    rewrite Z.mod_small by lia. apply Z.leb_le. lia. }
  unfold RegisterReinterpretSurface. rewrite Hs. simpl.
  eexists. eexists. split; [reflexivity|]. simpl.
  rewrite insert_empty by exact He. split; [reflexivity|].
  rewrite lookup_insert_eq. split; [reflexivity|]. split; [reflexivity|].
  intros x. apply contains_empty, He.
Qed.

Lemma tiny_surface_not_tracked_witness :
  exists c',
    RegisterReinterpretSurface
      (with_heap (<[3%positive := Sample.entry 4096 2]> (heap Sample.cache))
         Sample.cache) 3%positive = Some c' /\
    reinterpreted_surfaces c' = [].
Proof.
  destruct (tiny_surface_not_tracked
              (with_heap (<[3%positive := Sample.entry 4096 2]>
                            (heap Sample.cache)) Sample.cache)
              3%positive (Sample.entry 4096 2))
    as (c' & _ & H1 & H2 & _).
  - reflexivity.
  - simpl. lia.
  - simpl. lia.
  - exists c'. split; [exact H1 | exact H2].
Defined.

End TrackerFacts.

(** * Names *)

(** X17: [IdentityString] has no name for a cube array: [TargetName] has no
    case for [TextureCubeArray], which [SurfaceTargetName] does name, and
    runs into its unimplemented branch. For every other target the string
    is defined and tells class, target and tiling apart: two descriptors
    with the same identity string agree on all three. *)
Theorem IdentityString_spec (p q : SurfaceParams.t) :
  (SurfaceParams.IdentityString p = None
   <-> SurfaceParams.target p = TextureCubeArray) /\
  SurfaceParams.SurfaceTargetName (SurfaceParams.target p) <> None /\
  (SurfaceParams.IdentityString p <> None ->
   SurfaceParams.IdentityString p = SurfaceParams.IdentityString q ->
   SurfaceParams.identity p = SurfaceParams.identity q /\
   SurfaceParams.target p = SurfaceParams.target q /\
   SurfaceParams.is_tiled p = SurfaceParams.is_tiled q).
Proof.
  unfold SurfaceParams.IdentityString, SurfaceParams.ClassName,
    SurfaceParams.TargetName.
  split; [|split].
  - destruct (SurfaceParams.identity p), (SurfaceParams.target p);
      simpl; split; (discriminate || reflexivity).
  - destruct (SurfaceParams.target p); discriminate.
  - pose (name := fun (a : SurfaceClass * SurfaceTarget * bool) =>
              SurfaceParams.IdentityString
                (SurfaceParams.mk a.2 0 0 0 0 0 0 0 0 0 0 0 0 a.1.2 a.1.1 0
                   false false false 0 0 0 0 (SurfaceParams.mk_rt 0 0 0 0 0))).
    pose (all := a ← [Uploaded; RenderTarget; DepthBuffer; Copy];
                 b ← [Texture1D; Texture2D; Texture3D; Texture1DArray;
                      Texture2DArray; TextureCubemap; TextureCubeArray];
                 d ← [true; false]; [(a, b, d)]).
    pose (parse := fun str : string =>
              List.find (fun a => bool_decide (name a = Some str)) all).
    assert (Hparse : forall a str, name a = Some str -> parse str = Some a).
    { intros [[[] []] []] str Ha; vm_compute in Ha;
        first [ discriminate Ha | injection Ha as <-; vm_compute; reflexivity ]. }
    assert (Hname : forall r,
               SurfaceParams.IdentityString r
               = name (SurfaceParams.identity r, SurfaceParams.target r,
                       SurfaceParams.is_tiled r)) by reflexivity.
    fold (SurfaceParams.ClassName p) (SurfaceParams.TargetName p)
      (SurfaceParams.ClassName q) (SurfaceParams.TargetName q).
    fold (SurfaceParams.IdentityString p) (SurfaceParams.IdentityString q).
    rewrite !Hname. intros Hdef Heq.
    destruct (name (SurfaceParams.identity p, SurfaceParams.target p,
                    SurfaceParams.is_tiled p)) as [str|] eqn:Hp;
      [|exfalso; apply Hdef; reflexivity].
    symmetry in Heq. apply Hparse in Hp, Heq.
    rewrite Hp in Heq. injection Heq as -> -> ->. repeat split.
Qed.

(** * Row alignment *)

Section RowAlignment.

Variable GetBytesPerPixel : PixelFormat -> Z.
Variable CountTrailingZeroes32 : Z -> Z.

(** What [CountTrailingZeroes32] is taken to return for a non-zero 32-bit
    value: the exponent of the largest power of two that divides it. *)
Hypothesis CountTrailingZeroes32_spec :
  forall x, 0 < x < 2 ^ 32 ->
    0 <= CountTrailingZeroes32 x /\
    (2 ^ CountTrailingZeroes32 x | x) /\
    ~ (2 ^ (CountTrailingZeroes32 x + 1) | x).

(** X18: when the byte width of a row of the mip level, as a 32-bit
    product, is not zero, [RowAlign] is defined and is the largest power of
    two that divides it. *)
Theorem RowAlign_spec (p : SurfaceParams.t) (m : Z) :
  let row :=
    wrap32 (SurfaceParams.MipWidth p m
            * GetBytesPerPixel (SurfaceParams.pixel_format p)) in
  0 < row ->
  exists a k,
    SurfaceParams.RowAlign GetBytesPerPixel CountTrailingZeroes32 p m = Some a /\
    0 <= k < 32 /\ a = 2 ^ k /\
    (a | row) /\ ~ (2 * a | row) /\ 1 <= a <= row.
Proof.
  intros row Hrow.
  assert (Hr : 0 < row < 2 ^ 32)
    by (split; [exact Hrow | apply Z.mod_pos_bound; lia]).
  destruct (CountTrailingZeroes32_spec row Hr) as (Hk & Hdiv & Hmax).
  set (k := CountTrailingZeroes32 row) in *.
  assert (Hle : 2 ^ k <= row) by (apply Z.divide_pos_le; [lia | exact Hdiv]).
  assert (Hk32 : k < 32).
  { destruct (Z_lt_ge_dec k 32) as [|Hge]; [assumption|].
    assert (2 ^ 32 <= 2 ^ k) by (apply Z.pow_le_mono_r; lia). lia. }
  assert (Hpos : 0 < 2 ^ k) by (apply Z.pow_pos_nonneg; lia).
  exists (2 ^ k), k.
  unfold SurfaceParams.RowAlign. cbv zeta. fold row. fold k.
  destruct (Z.ltb_spec k 32); [|lia].
  rewrite Z.shiftl_1_l, wrap32_small by (unfold is_u32; lia).
  repeat split; try lia; try assumption.
  rewrite Z.pow_add_r, Z.mul_comm in Hmax by lia. exact Hmax.
Qed.

End RowAlignment.

Lemma trailing_zeroes_spec (n : positive) :
  0 <= Sample.trailing_zeroes n /\
  (2 ^ Sample.trailing_zeroes n | Zpos n) /\
  ~ (2 ^ (Sample.trailing_zeroes n + 1) | Zpos n).
Proof.
  induction n as [n _ | n (IH0 & IH1 & IH2) | ]; simpl.
  - split; [lia|]. split; [apply Z.divide_1_l|].
    intros [u Hu]. lia.
  - split; [lia|]. rewrite !Z.pow_add_r by lia. change (2 ^ 1) with 2.
    split.
    + destruct IH1 as [u Hu]. exists u. lia.
    + intros [u Hu]. apply IH2. rewrite Z.pow_add_r by lia.
      change (2 ^ 1) with 2. exists u. lia.
  - split; [lia|]. split; [apply Z.divide_1_l|].
    intros [u Hu]. lia.
Qed.

Lemma RowAlign_spec_witness :
  exists a,
    SurfaceParams.RowAlign Sample.GetBytesPerPixel Sample.CountTrailingZeroes32
      Sample.surface 2 = Some a /\
    (a | 512) /\ ~ (2 * a | 512).
Proof.
  destruct (RowAlign_spec Sample.GetBytesPerPixel Sample.CountTrailingZeroes32)
    with (p := Sample.surface) (m := 2) as (a & k & Ha & _ & _ & Hd & Hm & _).
  - intros [|n|n] Hx; try lia. apply trailing_zeroes_spec.
  - vm_compute. reflexivity.
  - exists a. split; [exact Ha|]. split; [exact Hd | exact Hm].
Defined.
